(** * Batch recording utilities (src/lib/batch.js)

    A shallow embedding of the batch dispatcher: URL-file parsing, output
    path derivation, the sequential loop, the concurrency-limited worker
    pool and the summary printer.

    Conventions.
    - A JavaScript string is a [string]; every [ascii] stands for one code
      unit in the range 0..255.
    - Array indices and lengths are [nat]; other numbers are [Z].
    - A plain object is a finite map from property names to values.
    - An array that may have empty slots is a [list (option object)]. *)

From Stdlib Require Import ZArith Ascii DecimalString DecimalNat DecimalZ.
From stdpp Require Import base tactics option list gmap strings fin_maps.

(** ** JavaScript values *)

(** The values that the properties of an object hold here: undefined,
    null, booleans, integer numbers, strings and [Error] objects. Symbols,
    functions and nested objects are outside the model. *)
Inductive value :=
| VUndefined
| VNull
| VBool (b : bool)
| VNum (n : Z)
| VStr (s : string)
| VError (name message : string).

(** An object: own enumerable properties. *)
Abbreviation object := (gmap string value).

(** An array of objects; [None] is an empty slot (reads as undefined). *)
Abbreviation array := (list (option object)).

(** Completion of a call: it returns or it throws. For an async function
    the same type describes its promise once settled. *)
Inductive completion (A : Type) :=
| Normal (a : A)
| Throw (e : value).
Arguments Normal {A} a.
Arguments Throw {A} e.

(** [String(n)] for a natural number. *)
Definition decimal (n : nat) : string := NilZero.string_of_uint (Nat.to_uint n).

(** [Number.prototype.toString] for the numbers that are integers. [VNum z]
    is the number that the literal [z] denotes: the double nearest to [z],
    ties to even. *)
Module Number.

(** The double nearest to the integer [a >= 0]. *)
Definition to_double (a : Z) : Z :=
  if (a <? 2 ^ 53)%Z then a
  else
    let e := (Z.log2 a - 52)%Z in
    let m := (a / 2 ^ e)%Z in
    let r := (a mod 2 ^ e)%Z in
    let half := (2 ^ (e - 1))%Z in
    let m := if (half <? r)%Z || ((r =? half)%Z && Z.odd m) then (m + 1)%Z else m in
    (m * 2 ^ e)%Z.

(** Whether the integer [v] is read back as the double [x >= 2 ^ 53]. *)
Definition reads_as (x v : Z) : bool :=
  let e := (Z.log2 x - 52)%Z in
  let m := (x / 2 ^ e)%Z in
  let up := (2 ^ e)%Z in
  let down := if (m =? 2 ^ 52)%Z then (2 ^ (e - 1))%Z else up in
  if Z.even m
  then (2 * x - down <=? 2 * v)%Z && (2 * v <=? 2 * x + up)%Z
  else (2 * x - down <? 2 * v)%Z && (2 * v <? 2 * x + up)%Z.

(** The integer with [k] significant digits, [n] digits in all, that is
    read back as [x], the nearest one if there are two. *)
Definition with_digits (x n k : Z) : option Z :=
  let p := (10 ^ (n - k))%Z in
  let s := (x / p)%Z in
  let below := (s * p)%Z in
  let above := ((s + 1) * p)%Z in
  match reads_as x below, reads_as x above with
  | true, true =>
      if (x - below <? above - x)%Z then Some below
      else if (above - x <? x - below)%Z then Some above
      else if Z.even s then Some below else Some above
  | true, false => Some below
  | false, true => Some above
  | false, false => None
  end.

(** The shortest decimal that is read back as [x]. *)
Fixpoint shortest (x n : Z) (k : Z) (fuel : nat) : Z :=
  match fuel with
  | O => x
  | S fuel =>
      match with_digits x n k with
      | Some v => v
      | None => shortest x n (k + 1)%Z fuel
      end
  end.

Fixpoint strip_zeros (s : string) : string :=
  match s with
  | EmptyString => EmptyString
  | String c r =>
      match strip_zeros r with
      | EmptyString => if Ascii.eqb c "0" then EmptyString else String c EmptyString
      | r' => String c r'
      end
  end.

Definition digits (z : Z) : string := NilZero.string_of_int (Z.to_int z).

Definition toString (z : Z) : string :=
  let sign := if (z <? 0)%Z then "-" else "" in
  let x := to_double (Z.abs z) in
  if (x <? 2 ^ 53)%Z then sign +:+ digits x
  else if (2 ^ 1024 <=? x)%Z then sign +:+ "Infinity"
  else
    let n := Z.of_nat (String.length (digits x)) in
    let v := digits (shortest x n 1 17) in
    if (String.length v <=? 21)%nat then sign +:+ v
    else
      match strip_zeros v with
      | String d EmptyString =>
          sign +:+ String d ("e+" +:+ digits (Z.of_nat (String.length v) - 1))
      | String d rest =>
          sign +:+ String d ("." +:+ rest +:+ "e+" +:+ digits (Z.of_nat (String.length v) - 1))
      | EmptyString => sign +:+ v
      end.

End Number.

(** Template-literal interpolation [`${v}`], for the values of the model:
    undefined, null, booleans, integer numbers, strings, and [Error]
    objects, which print as [Error.prototype.toString] has it. *)
Definition to_string (v : value) : string :=
  match v with
  | VUndefined => "undefined"
  | VNull => "null"
  | VBool true => "true"
  | VBool false => "false"
  | VNum n => Number.toString n
  | VStr s => s
  | VError name message =>
      if String.eqb name "" then message
      else if String.eqb message "" then name
      else name +:+ ": " +:+ message
  end.

(** ToBoolean. *)
Definition truthy (v : value) : bool :=
  match v with
  | VUndefined | VNull => false
  | VBool b => b
  | VNum n => negb (n =? 0)%Z
  | VStr s => negb (String.eqb s "")
  | VError _ _ => true
  end.

(** Property read [o.k]: a missing property reads as undefined. *)
Definition get (o : object) (k : string) : value := default VUndefined (o !! k).

(** Object literal with a trailing spread, [{ ...fields, ...extra }]:
    properties of [extra] win over the fields written before it. *)
Definition spread (fields extra : object) : object := extra ∪ fields.

(** ** String primitives *)

Definition code (c : ascii) : N := N_of_ascii c.

Definition is_upper (c : ascii) : bool := (65 <=? code c)%N && (code c <=? 90)%N.
Definition is_lower (c : ascii) : bool := (97 <=? code c)%N && (code c <=? 122)%N.
Definition is_digit (c : ascii) : bool := (48 <=? code c)%N && (code c <=? 57)%N.

(** The character class [a-zA-Z0-9]. *)
Definition is_alnum (c : ascii) : bool := is_lower c || is_upper c || is_digit c.

(** The character class [a-zA-Z0-9-]. *)
Definition is_alnum_dash (c : ascii) : bool := is_alnum c || Ascii.eqb c "-".

(** White space and line terminators removed by [trim], within 0..255. *)
Definition is_space (c : ascii) : bool :=
  ((9 <=? code c)%N && (code c <=? 13)%N) || (code c =? 32)%N || (code c =? 160)%N.

Fixpoint map_chars (f : ascii → ascii) (s : string) : string :=
  match s with
  | EmptyString => EmptyString
  | String c r => String (f c) (map_chars f r)
  end.

(** [s.replace(/[^a-zA-Z0-9]/g, '-')] *)
Definition replace_non_alnum (s : string) : string :=
  map_chars (λ c, if is_alnum c then c else "-"%char) s.

(** [s.replace(/[^a-zA-Z0-9-]/g, '-')] *)
Definition replace_non_alnum_dash (s : string) : string :=
  map_chars (λ c, if is_alnum_dash c then c else "-"%char) s.

(** [s.replace(/\./g, '-')] *)
Definition replace_dots (s : string) : string :=
  map_chars (λ c, if Ascii.eqb c "." then "-"%char else c) s.

(** [s.startsWith(p)] *)
Definition startsWith (p s : string) : bool := String.prefix p s.

(** [s.replace(/^www\./, '')] *)
Definition strip_www (s : string) : string :=
  if startsWith "www." s then String.substring 4 (String.length s - 4) s else s.

(** [s.replace(/^\//, '')] *)
Definition strip_leading_slash (s : string) : string :=
  match s with
  | String "/" r => r
  | _ => s
  end.

(** [s.replace(/\/$/, '')] *)
Fixpoint strip_trailing_slash (s : string) : string :=
  match s with
  | EmptyString => EmptyString
  | String c EmptyString => if Ascii.eqb c "/" then EmptyString else s
  | String c r => String c (strip_trailing_slash r)
  end.

Fixpoint repeat_char (c : ascii) (n : nat) : string :=
  match n with
  | O => EmptyString
  | S n' => String c (repeat_char c n')
  end.

(** [s.padStart(targetLength, c)] for a one-character filler. *)
Definition padStart (targetLength : nat) (c : ascii) (s : string) : string :=
  repeat_char c (targetLength - String.length s) +:+ s.

(** [parts.join(sep)] *)
Fixpoint join_with (sep : string) (parts : list string) : string :=
  match parts with
  | [] => ""
  | [p] => p
  | p :: rest => p +:+ sep +:+ join_with sep rest
  end.

(** [s.split(c)] for a one-character separator, on character lists. *)
Fixpoint split_chars (sep : ascii) (s : string) : list string :=
  match s with
  | EmptyString => [EmptyString]
  | String c r =>
      if Ascii.eqb c sep then EmptyString :: split_chars sep r
      else match split_chars sep r with
           | h :: t => String c h :: t
           | [] => [String c EmptyString]
           end
  end.

Fixpoint trimStart (s : string) : string :=
  match s with
  | EmptyString => EmptyString
  | String c r => if is_space c then trimStart r else s
  end.

Fixpoint trimEnd (s : string) : string :=
  match s with
  | EmptyString => EmptyString
  | String c r =>
      match trimEnd r with
      | EmptyString => if is_space c then EmptyString else String c EmptyString
      | r' => String c r'
      end
  end.

(** [s.trim()] *)
Definition trim (s : string) : string := trimEnd (trimStart s).

(** ** [path.join] of Node's POSIX flavour, for two arguments *)

Module Path.

(** One step of [normalizeString]: [stack] holds the kept segments, last
    one first. *)
Definition push_segment (allowAboveRoot : bool) (stack : list string) (seg : string)
  : list string :=
  if String.eqb seg "" || String.eqb seg "." then stack
  else if String.eqb seg ".." then
    match stack with
    | top :: below =>
        if String.eqb top ".." then
          (if allowAboveRoot then seg :: stack else stack)
        else below
    | [] => if allowAboveRoot then [seg] else []
    end
  else seg :: stack.

Definition normalizeString (path : string) (allowAboveRoot : bool) : string :=
  join_with "/" (rev (foldl (push_segment allowAboveRoot) [] (split_chars "/" path))).

Fixpoint last_char (s : string) : option ascii :=
  match s with
  | EmptyString => None
  | String c EmptyString => Some c
  | String _ r => last_char r
  end.

Definition normalize (path : string) : string :=
  if String.eqb path "" then "."
  else
    let isAbsolute := startsWith "/" path in
    let trailingSeparator :=
      match last_char path with Some c => Ascii.eqb c "/" | None => false end in
    let path' := normalizeString path (negb isAbsolute) in
    if String.eqb path' "" then
      (if isAbsolute then "/" else if trailingSeparator then "./" else ".")
    else
      let path'' := if trailingSeparator then path' +:+ "/" else path' in
      if isAbsolute then "/" +:+ path'' else path''.

Definition join (a b : string) : string :=
  match filter (λ arg, String.length arg ≠ 0) [a; b] with
  | [] => "."
  | parts => normalize (join_with "/" parts)
  end.

End Path.

(** ** The platform's URL parser *)

(** The two fields of a parsed [URL] that the program reads. *)
Record URL := { hostname : string; pathname : string }.

(** A parser for a fragment of the URL syntax: [scheme://host/path] with a
    host of letters, digits, [-] and [.], and a path of letters, digits and
    [/ - . _ ~]. The host is lower-cased and an empty path reads as [/].
    Every other input is reported as unparseable. It serves as a concrete
    instance of the parser in the examples. *)
Module Fragment.

Definition lower (c : ascii) : ascii :=
  if is_upper c then ascii_of_N (code c + 32) else c.

Fixpoint all_chars (p : ascii → bool) (s : string) : bool :=
  match s with
  | EmptyString => true
  | String c r => p c && all_chars p r
  end.

(** Split at the first occurrence of [c]. *)
Fixpoint break_at (c : ascii) (s : string) : string * option string :=
  match s with
  | EmptyString => (EmptyString, None)
  | String d r =>
      if Ascii.eqb d c then (EmptyString, Some r)
      else let '(before, after) := break_at c r in (String d before, after)
  end.

Definition is_scheme (s : string) : bool :=
  match s with
  | EmptyString => false
  | String c r =>
      (is_lower c || is_upper c)
      && all_chars (λ d, is_alnum d || Ascii.eqb d "+" || Ascii.eqb d "-" || Ascii.eqb d ".") r
  end.

Definition is_host_char (c : ascii) : bool := is_alnum_dash c || Ascii.eqb c ".".

Definition is_path_char (c : ascii) : bool :=
  is_host_char c || Ascii.eqb c "/" || Ascii.eqb c "_" || Ascii.eqb c "~".

Definition parse (url : string) : option URL :=
  match break_at ":" url with
  | (scheme, Some (String "/" (String "/" rest))) =>
      let '(host, path) := break_at "/" rest in
      let path := match path with Some p => String "/" p | None => "/" end in
      if is_scheme scheme && negb (String.eqb host "")
         && all_chars is_host_char host && all_chars is_path_char path
      then Some {| hostname := map_chars lower host; pathname := path |}
      else None
  | _ => None
  end.

End Fragment.

Section PathDeriver.

(** [new URL(url)] is the platform's; [parseURL] returns the parsed URL,
    or [None] where the constructor throws. *)
Variable parseURL : string → option URL.

Definition new_URL (url : string) : completion URL :=
  match parseURL url with
  | Some u => Normal u
  | None => Throw (VError "TypeError" "Invalid URL")
  end.

(** [try { body } catch { handler }] around a call that may throw. *)
Definition try_catch {A B : Type} (body : completion A)
    (continue : A → completion B) (handler : completion B) : completion B :=
  match body with
  | Normal a => continue a
  | Throw _ => handler
  end.

Definition generateOutputPath (url : string) (index : nat) (outputDir : string)
  : completion string :=
  try_catch (new_URL url)
    (λ parsed,
      let hostname := strip_www (hostname parsed) in
      let pathSlug :=
        String.substring 0 60
          (replace_non_alnum_dash
             (strip_trailing_slash (strip_leading_slash (pathname parsed)))) in
      let prefix := padStart 3 "0" (decimal (index + 1)) in
      let hostPart := replace_dots hostname in
      let nameParts := [prefix; hostPart] in
      let nameParts :=
        if negb (String.eqb pathSlug "") then (nameParts ++ [pathSlug])%list else nameParts in
      Normal (Path.join outputDir (join_with "-" nameParts +:+ ".mp4")))
    (let slug := String.substring 0 50 (replace_non_alnum url) in
     let prefix := padStart 3 "0" (decimal (index + 1)) in
     Normal (Path.join outputDir (prefix +:+ "-" +:+ slug +:+ ".mp4"))).

End PathDeriver.

(** ** The world outside the program: file system and log sink *)

Inductive node :=
| File (content : string)
| Directory.

Record world := World { fs : gmap string node; console : list string }.

(** Computations that read and change the world and may throw. *)
Definition M (A : Type) : Type := world → completion A * world.

#[export] Instance M_ret : MRet M := λ A a w, (Normal a, w).

#[export] Instance M_bind : MBind M := λ A B f m w,
  match m w with
  | (Normal a, w') => f a w'
  | (Throw e, w') => (Throw e, w')
  end.

Definition throw {A : Type} (e : value) : M A := λ w, (Throw e, w).

(** A call of a function that touches nothing of the world; also [await]
    of a settled promise. *)
Definition lift {A : Type} (c : completion A) : M A := λ w, (c, w).

(** [new Error(message)] *)
Definition Error (message : string) : value := VError "Error" message.

(** Modelled from the spec: [log] of ./cleanup.js. All progress lines go
    through this one logging function; it hands the line to the log sink
    and does nothing else. *)
Definition log (message : string) : M () :=
  λ w, (Normal (), World (fs w) (console w ++ [message])).

Definition existsSync (path : string) : M bool :=
  λ w, (Normal (bool_decide (is_Some (fs w !! path))), w).

(** [readFile(path, 'utf-8')], awaited. *)
Definition readFile (path : string) : M string :=
  λ w, match fs w !! path with
       | Some (File content) => (Normal content, w)
       | Some Directory =>
           (Throw (Error "EISDIR: illegal operation on a directory, read"), w)
       | None => (Throw (Error "ENOENT: no such file or directory"), w)
       end.

(** A small model of recursive directory creation, for the examples, on
    paths taken as they are written: the ancestors of the path and the path
    itself are created where they are missing, and a regular file on the
    way is an error. *)
Module Disk.

(** The ancestors of a path and the path itself, outermost first: the
    prefixes that end before a separator, the empty one left out. *)
Fixpoint prefixes (before s : string) : list string :=
  match s with
  | EmptyString => if String.eqb before "" then [] else [before]
  | String c r =>
      let rest := prefixes (before +:+ String c "") r in
      if Ascii.eqb c "/" && negb (String.eqb before "") then before :: rest else rest
  end.

Definition mkdir_step (dir : string) (st : completion () * gmap string node)
    (path : string) : completion () * gmap string node :=
  match st with
  | (Throw e, files) => (Throw e, files)
  | (Normal _, files) =>
      match files !! path with
      | Some (File _) =>
          if String.eqb path dir
          then (Throw (Error ("EEXIST: file already exists, mkdir '" +:+ dir +:+ "'")), files)
          else (Throw (Error ("ENOTDIR: not a directory, mkdir '" +:+ dir +:+ "'")), files)
      | Some Directory => (Normal (), files)
      | None => (Normal (), <[path := Directory]> files)
      end
  end.

Definition mkdir (dir : string) (files : gmap string node)
  : completion () * gmap string node :=
  foldl (mkdir_step dir) (Normal (), files) (prefixes "" dir).

End Disk.

(** ** readUrlFile *)

Definition readUrlFile (filePath : string) : M (list string) :=
  log ("Reading URL file: " +:+ filePath);;
  present ← existsSync filePath;
  (if negb present then throw (Error ("URL file not found: " +:+ filePath)) else mret ());;
  content ← readFile filePath;
  let urls :=
    filter (λ line, 0 < String.length line ∧ startsWith "#" line = false)
      (trim <$> split_chars (ascii_of_nat 10) content) in
  (if decide (length urls = 0)
   then throw (Error ("No URLs found in file: " +:+ filePath)) else mret ());;
  log ("Found " +:+ decimal (length urls) +:+ " URL(s) in file");;
  mret urls.

(** ** ensureOutputDir *)

Section Directories.

(** [mkdirSync(dir, { recursive: true })] is the platform's: given the
    path and the file system, [mkdir] returns or throws (a regular file on
    the way, a missing permission, a full disk, ...) and leaves the file
    system it made of it. *)
Variable mkdir : string → gmap string node → completion () * gmap string node.

Definition mkdirSync (dir : string) : M () :=
  λ w, let '(c, files) := mkdir dir (fs w) in (c, World files (console w)).

Definition ensureOutputDir (dir : string) : M () :=
  present ← existsSync dir;
  if negb present then
    log ("Creating output directory: " +:+ dir);;
    mkdirSync dir
  else mret ().

End Directories.

(** ** printBatchSummary *)

(** The [for ... of] loop; an empty slot is read as undefined and reading
    its [success] throws. *)
Fixpoint printBatchSummary_loop (results : array) (successCount failCount : nat)
  : M (nat * nat) :=
  match results with
  | [] => mret (successCount, failCount)
  | None :: _ =>
      throw (VError "TypeError" "Cannot read properties of undefined (reading 'success')")
  | Some result :: rest =>
      let status := if truthy (get result "success") then "OK" else "FAIL" in
      let detail :=
        if truthy (get result "success") then get result "outputPath"
        else get result "error" in
      log ("  [" +:+ status +:+ "] " +:+ to_string (get result "url"));;
      log ("         " +:+ to_string detail);;
      if truthy (get result "success")
      then printBatchSummary_loop rest (S successCount) failCount
      else printBatchSummary_loop rest successCount (S failCount)
  end.

Definition printBatchSummary (results : array) : M () :=
  log (repeat_char "=" 70);;
  log "Batch Recording Summary";;
  log (repeat_char "=" 70);;
  '(successCount, failCount) ← printBatchSummary_loop results 0 0;
  log (repeat_char "-" 70);;
  log ("Total: " +:+ decimal (length results) +:+ " | Success: " +:+ decimal successCount
       +:+ " | Failed: " +:+ decimal failCount);;
  log (repeat_char "=" 70).

(** ** Notions used in the statements *)

(** Reading a numeral back, leading zeros allowed. *)
Definition read_decimal (s : string) : option nat :=
  Nat.of_uint <$> NilEmpty.uint_of_string s.

(** The index prefix of the file name. *)
Definition index_prefix (index : nat) : string := padStart 3 "0" (decimal (index + 1)).

(** The indices for which the number [index + 1] is computed exactly and
    prints as its decimal digits: those below [2 ^ 53 - 1]. *)
Definition exact_index (index : nat) : Prop := (Z.of_nat index + 1 < 2 ^ 53)%Z.

(** The first character of a line that is not white space, if there is one. *)
Definition first_non_space (line : string) : option ascii :=
  match trimStart line with
  | String c _ => Some c
  | EmptyString => None
  end.

(** The rule of the input format: a line is ignored when it is empty after
    trimming or when its first non-space character is [#]. *)
Definition ignored_line (line : string) : bool :=
  String.eqb (trim line) ""
  || match first_non_space line with
     | Some c => Ascii.eqb c "#"
     | None => false
     end.

(** The URL list of a file, by the rule: its lines in order, the ignored
    ones dropped, each one trimmed. *)
Definition url_lines (content : string) : list string :=
  trim <$> filter (λ line, ignored_line line = false) (split_chars (ascii_of_nat 10) content).

(** The file of the scenario. *)
Definition scenario_file : string :=
  "# comment" +:+ String (ascii_of_nat 10) "" +:+ String (ascii_of_nat 10) ""
  +:+ "https://example.com/page" +:+ String (ascii_of_nat 10) "" +:+ "not a url".

(** A job counts as a success when its [success] property is truthy. *)
Definition succeeded (slot : option object) : bool :=
  match slot with
  | Some result => truthy (get result "success")
  | None => false
  end.

(** The two lines of the report for one job. *)
Definition summary_rows (slot : option object) : list string :=
  match slot with
  | Some result =>
      if truthy (get result "success")
      then ["  [OK] " +:+ to_string (get result "url");
            "         " +:+ to_string (get result "outputPath")]
      else ["  [FAIL] " +:+ to_string (get result "url");
            "         " +:+ to_string (get result "error")]
  | None => []
  end.

(** The tag of a job in the report, and a pair of rows for a job with the
    tag [t]: the first row shows the tag in brackets, whatever follows. *)
Definition tag (slot : option object) : string :=
  if succeeded slot then "OK" else "FAIL".

Definition tagged (t : string) (rows : list string) : Prop :=
  ∃ title detail, rows = [("  [" +:+ t +:+ "] ") +:+ title; "         " +:+ detail].

Definition successes (results : array) : nat :=
  length (filter (λ slot, succeeded slot = true) results).

Definition failures (results : array) : nat :=
  length (filter (λ slot, succeeded slot = false) results).

(** Every character of the string satisfies [p]. *)
Fixpoint every_char (p : ascii → bool) (s : string) : bool :=
  match s with
  | EmptyString => true
  | String c r => p c && every_char p r
  end.

(** The string holds no path separator. *)
Definition no_slash (s : string) : bool := every_char (λ c, negb (Ascii.eqb c "/")) s.

(** A file name that [path.join] keeps as one segment: not empty, without
    separator, and neither [.] nor [..]. *)
Definition simple_name (name : string) : bool :=
  no_slash name && negb (String.eqb name "") && negb (String.eqb name ".")
  && negb (String.eqb name "..").

(** The same text with Windows line ends: every line feed gets a carriage
    return in front. *)
Fixpoint crlf (s : string) : string :=
  match s with
  | EmptyString => EmptyString
  | String c r =>
      if Ascii.eqb c (ascii_of_nat 10)
      then String (ascii_of_nat 13) (String c (crlf r))
      else String c (crlf r)
  end.

(** ** Inputs for the examples *)

#[export] Instance value_eq_dec : EqDecision value.
Proof. solve_decision. Defined.

(** A recording function that succeeds for every job. *)
Definition record_ok (context : object) : completion object :=
  Normal (<["success" := VBool true]> ∅).

(** A recording function that raises for the job at index 1. *)
Definition record_crash_1 (context : object) : completion object :=
  if decide (context !! "jobIndex" = Some (VNum 1)) then Throw (VStr "crash")
  else Normal (<["success" := VBool true]> ∅).

(** A recording function whose result names another URL. *)
Definition record_redirected (context : object) : completion object :=
  Normal (<["success" := VBool true]> (<["url" := VStr "https://b.com/"]> ∅)).

Definition three_urls : list string :=
  ["https://a.com/x"; "not a url"; "https://www.c.org/"].

(** A recording function that returns a failure record for the job at
    index 2. *)
Definition record_fail_2 (context : object) : completion object :=
  if decide (context !! "jobIndex" = Some (VNum 2))
  then Normal (<["success" := VBool false]> (<["error" := VStr "timeout"]> ∅))
  else Normal (<["success" := VBool true]> ∅).

Definition five_urls : list string :=
  ["https://a.com/"; "https://b.com/"; "https://c.com/"; "https://d.com/"; "https://e.com/"].

(** ** The runners *)

(** [results.push(r)] *)
Definition push (results : array) (r : object) : array := results ++ [Some r].

(** [results[index] = r]; a write past the end extends the array with empty
    slots. *)
Definition store (results : array) (index : nat) (r : object) : array :=
  if decide (index < length results) then <[index := Some r]> results
  else results ++ replicate (index - length results) None ++ [Some r].

Section Runners.

(** The platform: [new URL] and the recursive [mkdirSync]. *)
Variable parseURL : string → option URL.
Variable mkdir : string → gmap string node → completion () * gmap string node.

(** The arguments shared by both runners. [recordFn] is the injected
    recording function: called with a job context, its promise settles to a
    result object or is rejected, as a function of the context. A function
    that throws at once is a rejected promise for the [await] in the
    callers. What a recording writes or logs on its own is not part of the
    world modelled here: the world of a run holds what the runners
    themselves do. *)
Variable urls : list string.
Variable outputDir : string.
Variable recordFn : object → completion object.
Variable sharedArgs : object.

(** [{ url, outputPath, ...result }] *)
Definition job_result (url outputPath : string) (result : object) : object :=
  spread (<["url" := VStr url]> (<["outputPath" := VStr outputPath]> ∅)) result.

(** The job context built by the sequential loop. *)
Definition sequential_context (url outputPath jobLabel : string) (i : nat) : object :=
  spread
    (<["url" := VStr url]>
       (<["outputPath" := VStr outputPath]>
          (<["jobLabel" := VStr jobLabel]>
             (<["jobIndex" := VNum (Z.of_nat i)]>
                (<["parallelMode" := VBool false]> ∅)))))
    sharedArgs.

(** The completion lines logged after a job. *)
Definition job_outcome_line (jobLabel : string) (result : object) : string :=
  if truthy (get result "success") then jobLabel +:+ " Completed successfully"
  else jobLabel +:+ " Failed: " +:+ to_string (get result "error").

(** The [for] loop of [runSequential], from index [i] on; [rest] holds
    [urls[i]], [urls[i+1]], ... *)
Fixpoint runSequential_loop (i : nat) (rest : list string) (results : array) : M array :=
  match rest with
  | [] => mret results
  | url :: rest' =>
      outputPath ← lift (generateOutputPath parseURL url i outputDir);
      let jobLabel := "[" +:+ decimal (i + 1) +:+ "/" +:+ decimal (length urls) +:+ "]" in
      log (repeat_char "=" 70);;
      log (jobLabel +:+ " Starting: " +:+ url);;
      log (jobLabel +:+ " Output: " +:+ outputPath);;
      log (repeat_char "=" 70);;
      result ← lift (recordFn (sequential_context url outputPath jobLabel i));
      let results := push results (job_result url outputPath result) in
      log (job_outcome_line jobLabel result);;
      runSequential_loop (S i) rest' results
  end.

Definition runSequential : M array :=
  ensureOutputDir mkdir outputDir;;
  runSequential_loop 0 urls [].

(** *** The worker pool *)

(** An entry [{ url, index }] of the queue. *)
Record job := Job { job_url : string; job_index : nat }.

Definition queue : list job := imap (λ i url, Job url i) urls.

(** Where a worker stands: suspended at its [await] (with the promise it
    waits for), returned, or rejected by an exception. *)
Inductive worker_state :=
| Awaiting (url : string) (index : nat) (outputPath jobLabel : string)
    (promise : completion object)
| Returned
| Rejected (reason : value).

(** The variables that the workers of one [runParallel] call share, the
    state of each worker, and the log written so far. [calls] and [writes]
    are history: every call of [recordFn] with the calling worker, and every
    assignment to a slot of [results] with the assigning worker. *)
Record pool := Pool {
  nextIndex : nat;
  results : array;
  workers : list worker_state;
  output : list string;
  calls : list (nat * object);
  writes : list (nat * nat)
}.

(** The job context built by worker [workerId]. *)
Definition parallel_context (workerId : nat) (url outputPath jobLabel : string)
    (index : nat) : object :=
  spread
    (<["url" := VStr url]>
       (<["outputPath" := VStr outputPath]>
          (<["jobLabel" := VStr jobLabel]>
             (<["jobIndex" := VNum (Z.of_nat index)]>
                (<["parallelMode" := VBool true]>
                   (<["displayStartNumber" := VNum (99 + Z.of_nat workerId * 10)]>
                      (<["sinkName" := VStr ("recording_sink_" +:+ decimal workerId)]> ∅)))))))
    sharedArgs.

(** The body of [worker] from the loop test up to the next [await], or to
    its end: the worker claims the next job and calls [recordFn], or
    returns when the queue is exhausted. *)
Definition worker_run (workerId : nat) (st : pool) : pool * worker_state :=
  if decide (nextIndex st < length queue) then
    let jobIdx := nextIndex st in
    let st := Pool (S jobIdx) (results st) (workers st) (output st) (calls st) (writes st) in
    match queue !! jobIdx with
    | None =>
        (st, Rejected (VError "TypeError" "Cannot destructure property 'url' of undefined"))
    | Some (Job url index) =>
        match generateOutputPath parseURL url index outputDir with
        | Throw e => (st, Rejected e)
        | Normal outputPath =>
            let jobLabel :=
              "[W" +:+ decimal workerId +:+ "|" +:+ decimal (index + 1) +:+ "/"
              +:+ decimal (length urls) +:+ "]" in
            let context := parallel_context workerId url outputPath jobLabel index in
            (Pool (nextIndex st) (results st) (workers st)
               (output st ++ [jobLabel +:+ " Starting: " +:+ url;
                              jobLabel +:+ " Output: " +:+ outputPath])
               (calls st ++ [(workerId, context)]) (writes st),
             Awaiting url index outputPath jobLabel (recordFn context))
        end
    end
  else (st, Returned).

(** The call [worker(i)] in the launch loop: the worker runs up to its
    first [await] and its promise is pushed on [workers]. *)
Definition spawn (st : pool) (i : nat) : pool :=
  let '(st, ws) := worker_run i st in
  Pool (nextIndex st) (results st) (workers st ++ [ws]) (output st) (calls st) (writes st).

(** Worker [workerId] continues after its [await]: a rejected promise
    throws out of the worker; a result is stored at the job's index and the
    worker goes round its loop. *)
Definition worker_resume (workerId : nat) (st : pool) : pool :=
  match workers st !! workerId with
  | Some (Awaiting url index outputPath jobLabel (Normal result)) =>
      let st :=
        Pool (nextIndex st) (store (results st) index (job_result url outputPath result))
          (workers st) (output st ++ [job_outcome_line jobLabel result])
          (calls st) (writes st ++ [(workerId, index)]) in
      let '(st, ws) := worker_run workerId st in
      Pool (nextIndex st) (results st) (<[workerId := ws]> (workers st)) (output st)
        (calls st) (writes st)
  | Some (Awaiting _ _ _ _ (Throw e)) =>
      Pool (nextIndex st) (results st) (<[workerId := Rejected e]> (workers st)) (output st)
        (calls st) (writes st)
  | _ => st
  end.

(** The launch loop: [for (let i = 0; i < Math.min(concurrency, urls.length); i++)]. *)
Definition launch (concurrency : Z) (st : pool) : pool :=
  foldl spawn st (seq 0 (Z.to_nat (Z.min concurrency (Z.of_nat (length urls))))).

Definition is_awaiting (ws : worker_state) : bool :=
  match ws with Awaiting _ _ _ _ _ => true | _ => false end.

(** The ids of the workers suspended at their [await], in increasing order. *)
Definition awaiting (ws : list worker_state) : list nat :=
  filter (λ i, from_option is_awaiting false (ws !! i) = true) (seq 0 (length ws)).

(** The first rejected worker promise, if any. *)
Fixpoint first_rejection (ws : list worker_state) : option value :=
  match ws with
  | [] => None
  | Rejected e :: _ => Some e
  | _ :: rest => first_rejection rest
  end.

(** [await Promise.all(workers)]. The promises of [recordFn] settle in an
    order the program does not control: entry [k] of [schedule] lets the
    [(k mod m)]-th of the [m] suspended workers continue. The outcome is a
    rejection as soon as one worker is rejected, the results once every
    worker has returned, and [None] while the schedule so far leaves workers
    suspended. *)
Fixpoint settle (schedule : list nat) (st : pool) : option (completion array) * pool :=
  match first_rejection (workers st) with
  | Some e => (Some (Throw e), st)
  | None =>
      match awaiting (workers st) with
      | [] => (Some (Normal (results st)), st)
      | (w0 :: _) as suspended =>
          match schedule with
          | [] => (None, st)
          | k :: schedule' =>
              settle schedule'
                (worker_resume (nth (k mod length suspended) suspended w0) st)
          end
      end
  end.

(** [runParallel] after [ensureOutputDir], with the final state of the pool.
    [concurrency] is [None] when the argument is left out. *)
Definition run_pool (concurrency : option Z) (schedule : list nat) (out : list string)
  : option (completion array) * pool :=
  let concurrency := default 2%Z concurrency in
  settle schedule
    (launch concurrency (Pool 0 (replicate (length urls) None) [] out [] [])).

Definition runParallel (concurrency : option Z) (schedule : list nat)
  : world → option (completion array) * world :=
  λ w, match ensureOutputDir mkdir outputDir w with
       | (Throw e, w') => (Some (Throw e), w')
       | (Normal _, w') =>
           let '(r, st) := run_pool concurrency schedule (console w') in
           (r, World (fs w') (output st))
       end.

(** *** Notions used in the statements about the runners *)

(** The output path of a job. *)
Definition outputPath_of (url : string) (index : nat) : string :=
  match generateOutputPath parseURL url index outputDir with
  | Normal path => path
  | Throw _ => ""
  end.

(** The context that the sequential loop hands to [recordFn] for the job
    at [index]. *)
Definition sequential_job_context (url : string) (index : nat) : object :=
  sequential_context url (outputPath_of url index)
    ("[" +:+ decimal (index + 1) +:+ "/" +:+ decimal (length urls) +:+ "]") index.

(** The context that worker [workerId] hands to [recordFn] for the job at
    [index]. *)
Definition parallel_job_context (workerId : nat) (url : string) (index : nat) : object :=
  parallel_context workerId url (outputPath_of url index)
    ("[W" +:+ decimal workerId +:+ "|" +:+ decimal (index + 1) +:+ "/"
     +:+ decimal (length urls) +:+ "]") index.

Definition job_of (s : worker_state) : option nat :=
  match s with
  | Awaiting _ index _ _ _ => Some index
  | _ => None
  end.

(** The indices of the jobs claimed and not yet stored. *)
Definition inflight (ws : list worker_state) : list nat := omap job_of ws.

(** *** The invariant of the pool *)

(** A worker suspended at its [await] waits for the promise of the job it
    claimed; a worker has returned only with the cursor at the end of the
    queue; a worker is rejected only by a rejected promise of [recordFn]. *)
Definition worker_ok (st : pool) (w : nat) (s : worker_state) : Prop :=
  match s with
  | Awaiting url index outputPath jobLabel promise =>
      urls !! index = Some url
      ∧ outputPath = outputPath_of url index
      ∧ promise = recordFn (parallel_job_context w url index)
  | Returned => nextIndex st = length urls
  | Rejected e =>
      ∃ w' url index,
        urls !! index = Some url ∧ recordFn (parallel_job_context w' url index) = Throw e
  end.

Record pool_inv (st : pool) : Prop := PoolInv {
  (** the cursor stays within the queue *)
  inv_next : nextIndex st ≤ length urls;
  (** the result array keeps its length *)
  inv_length : length (results st) = length urls;
  inv_workers : ∀ w s, workers st !! w = Some s → worker_ok st w s;
  (** while no worker is rejected, the indices below the cursor are, each
      one once, either stored or in flight *)
  inv_claimed :
    first_rejection (workers st) = None →
    (writes st).*2 ++ inflight (workers st) ≡ₚ seq 0 (nextIndex st);
  (** a stored slot holds the result of its own job *)
  inv_written : ∀ w i, (w, i) ∈ writes st →
    w < length (workers st)
    ∧ ∃ url result,
        urls !! i = Some url
        ∧ recordFn (parallel_job_context w url i) = Normal result
        ∧ results st !! i = Some (Some (job_result url (outputPath_of url i) result));
  (** the other slots are empty *)
  inv_unwritten : ∀ i, i < length urls → i ∉ (writes st).*2 → results st !! i = Some None;
  (** every call of [recordFn] was made by a launched worker, with the
      context of that worker *)
  inv_calls : ∀ w context, (w, context) ∈ calls st →
    w < length (workers st)
    ∧ ∃ url index, urls !! index = Some url ∧ context = parallel_job_context w url index
}.

(** The number of workers that [runParallel] launches. *)
Definition worker_count (concurrency : option Z) : nat :=
  Z.to_nat (Z.min (default 2%Z concurrency) (Z.of_nat (length urls))).

(** The array has the length of the input and its [i]-th element carries
    the [i]-th input URL. *)
Definition in_input_order (rs : array) : Prop :=
  length rs = length urls
  ∧ ∀ i url, urls !! i = Some url →
      ∃ r, rs !! i = Some (Some r) ∧ r !! "url" = Some (VStr url).

(** The element at index [i] of the array [rs] is [result], the result of
    the recording of [url], with the URL and the path of the job added:
    every property of [result] is kept, and [url] and [outputPath] are added
    where [result] has none. *)
Definition job_element (rs : array) (i : nat) (url : string) (result : object) : Prop :=
  ∃ path r,
    generateOutputPath parseURL url i outputDir = Normal path
    ∧ rs !! i = Some (Some r)
    ∧ r = job_result url path result
    ∧ (∀ k v, result !! k = Some v → r !! k = Some v)
    ∧ get r "success" = get result "success"
    ∧ (result !! "url" = None → r !! "url" = Some (VStr url))
    ∧ (result !! "outputPath" = None → r !! "outputPath" = Some (VStr path)).

(** The history of calls follows the cursor: there is one call for every
    claimed job, and the call number [k] is the one for the job at index
    [k]. *)
Definition calls_in_order (st : pool) : Prop :=
  length (calls st) = nextIndex st
  ∧ ∀ k w context, calls st !! k = Some (w, context) →
      ∃ url, urls !! k = Some url ∧ context = parallel_job_context w url k.

(** * Properties *)

(** ** Strings and decimal numerals *)

Lemma length_append (s t : string) :
  String.length (s +:+ t) = String.length s + String.length t.
Proof. induction s as [|c s IH]; simpl; [done | by rewrite IH]. Qed.

Lemma append_assoc (s t u : string) : s +:+ (t +:+ u) = (s +:+ t) +:+ u.
Proof.
  induction s as [|c s IH]; [done|].
  change (String c (s +:+ (t +:+ u)) = String c ((s +:+ t) +:+ u)). by rewrite IH.
Qed.

Lemma length_repeat_char (c : ascii) (n : nat) : String.length (repeat_char c n) = n.
Proof. induction n as [|n IH]; simpl; [done | by rewrite IH]. Qed.

Lemma length_padStart (n : nat) (c : ascii) (s : string) :
  String.length (padStart n c s) = n `max` String.length s.
Proof. unfold padStart. rewrite length_append, length_repeat_char. lia. Qed.

Lemma to_uint_nonnil (n : nat) : Nat.to_uint n ≠ Decimal.Nil.
Proof.
  rewrite <- (DecimalNat.Unsigned.of_to n) at 1.
  rewrite DecimalNat.Unsigned.to_of. apply DecimalFacts.unorm_nonnil.
Qed.

Lemma read_decimal_decimal (n : nat) : read_decimal (decimal n) = Some n.
Proof.
  unfold read_decimal, decimal, NilZero.string_of_uint.
  pose proof (to_uint_nonnil n) as Hn.
  destruct (Nat.to_uint n) eqn:E; try done;
    rewrite <- E, NilEmpty.usu; simpl; by rewrite DecimalNat.Unsigned.of_to.
Qed.

Lemma read_decimal_zeros (k : nat) (s : string) (n : nat) :
  read_decimal s = Some n → read_decimal (repeat_char "0" k +:+ s) = Some n.
Proof.
  intros Hs. induction k as [|k IH]; simpl; [done|].
  unfold read_decimal in *. simpl.
  destruct (NilEmpty.uint_of_string (repeat_char "0" k +:+ s)) as [d|]; [|done].
  simpl in *. done.
Qed.

Lemma read_decimal_padStart (k n : nat) : read_decimal (padStart k "0" (decimal n)) = Some n.
Proof. apply read_decimal_zeros, read_decimal_decimal. Qed.

Lemma padStart_decimal_inj (k n m : nat) :
  padStart k "0" (decimal n) = padStart k "0" (decimal m) → n = m.
Proof.
  intros H. pose proof (read_decimal_padStart k n) as Hn.
  rewrite H, read_decimal_padStart in Hn. congruence.
Qed.

Lemma length_decimal_le_3 (n : nat) : n ≤ 999 → String.length (decimal n) ≤ 3.
Proof.
  intros Hn.
  assert (forallb (λ k, String.length (decimal k) <=? 3) (seq 0 1000) = true) as H
    by (vm_compute; reflexivity).
  rewrite forallb_forall in H. apply Nat.leb_le, H, in_seq. lia.
Qed.

Lemma get_map_chars (f : ascii → ascii) (s : string) (i : nat) :
  String.get i (map_chars f s) = f <$> String.get i s.
Proof.
  revert i. induction s as [|c s IH]; intros [|i]; simpl; done.
Qed.

Lemma get_substring_0 (n : nat) (s : string) (i : nat) :
  String.get i (String.substring 0 n s) = if decide (i < n) then String.get i s else None.
Proof.
  revert s i. induction n as [|n IH]; intros [|c s] [|i]; simpl;
    try rewrite IH; repeat case_decide; done || lia.
Qed.

Lemma length_substring_0 (n : nat) (s : string) :
  String.length (String.substring 0 n s) = n `min` String.length s.
Proof.
  revert s. induction n as [|n IH]; intros [|c s]; simpl; try done. by rewrite IH.
Qed.

(** ** generateOutputPath *)

Lemma generateOutputPath_Normal (url : string) (index : nat) (dir : string) :
  ∃ path, generateOutputPath parseURL url index dir = Normal path.
Proof.
  unfold generateOutputPath, try_catch, new_URL.
  destruct (parseURL url); eauto.
Qed.

(** C4. [generateOutputPath] returns a path for every string [url], every
    index and every output directory: it never throws. Where the URL does
    not parse, the path is the output directory joined with the padded
    1-based index, a dash and the slug of the raw string; the slug has at
    most 50 characters, and its character at each position below 50 is the
    character of [url] there when that is a letter or a digit and ['-']
    otherwise. *)
Theorem generateOutputPath_total (url : string) (index : nat) (dir : string) :
  ∃ path,
    generateOutputPath parseURL url index dir = Normal path
    ∧ match parseURL url with
      | Some _ => True
      | None =>
          let slug := String.substring 0 50 (replace_non_alnum url) in
          path = Path.join dir
                   (padStart 3 "0" (decimal (index + 1)) +:+ "-" +:+ slug +:+ ".mp4")
          ∧ String.length slug = 50 `min` String.length url
          ∧ ∀ i, i < 50 →
              String.get i slug
              = (λ c, if is_alnum c then c else "-"%char) <$> String.get i url
      end.
Proof.
  unfold generateOutputPath, try_catch, new_URL.
  destruct (parseURL url) as [u|]; [eauto|].
  eexists; split; [reflexivity|]. cbv zeta. split; [reflexivity|]. split.
  - rewrite length_substring_0. unfold replace_non_alnum.
    f_equal. clear. induction url as [|c s IH]; simpl; [done | by rewrite IH].
  - intros i Hi. rewrite get_substring_0. case_decide; [|lia].
    apply get_map_chars.
Qed.

Lemma generateOutputPath_prefix (url : string) (index : nat) (dir : string) :
  ∃ rest,
    generateOutputPath parseURL url index dir
    = Normal (Path.join dir (index_prefix index +:+ "-" +:+ rest)).
Proof.
  unfold generateOutputPath, try_catch, new_URL, index_prefix.
  destruct (parseURL url) as [u|]; [|eauto].
  destruct (negb _); simpl; rewrite <- !append_assoc; eexists; reflexivity.
Qed.

(** C5, as the code has it. For an index below [2 ^ 53 - 1], where
    [index + 1] is exact, the file name handed to [path.join] begins with
    the decimal rendering of [index + 1] padded with zeros on the left to at
    least 3 characters, followed by a dash: 3 characters while
    [index + 1 <= 999], and all the digits of [index + 1] beyond that. Among
    those indices the prefix is different for different indices. *)
Theorem index_prefix_unique (url : string) (index : nat) (dir : string) :
  exact_index index →
  (∃ rest,
     generateOutputPath parseURL url index dir
     = Normal (Path.join dir (index_prefix index +:+ "-" +:+ rest)))
  ∧ index_prefix index = padStart 3 "0" (decimal (index + 1))
  ∧ String.length (index_prefix index) = 3 `max` String.length (decimal (index + 1))
  ∧ (index + 1 ≤ 999 → String.length (index_prefix index) = 3)
  ∧ (∀ index', exact_index index' →
       index_prefix index' = index_prefix index → index' = index).
Proof.
  intros _. split; [apply generateOutputPath_prefix|]. split; [reflexivity|].
  split; [apply length_padStart|]. split.
  - intros H. unfold index_prefix. rewrite length_padStart.
    apply length_decimal_le_3 in H. lia.
  - intros index' _ H. apply padStart_decimal_inj in H. lia.
Qed.

(** C7. With the URL parsed as the platform does, host in lower case and
    path as written, ["https://www.Example.com/Foo/Bar/"] at index 0 in
    ["/out"] gives ["/out/001-example-com-Foo-Bar.mp4"]. *)
Theorem generateOutputPath_scenario :
  parseURL "https://www.Example.com/Foo/Bar/"
  = Some {| hostname := "www.example.com"; pathname := "/Foo/Bar/" |} →
  generateOutputPath parseURL "https://www.Example.com/Foo/Bar/" 0 "/out"
  = Normal "/out/001-example-com-Foo-Bar.mp4".
Proof.
  intros H. unfold generateOutputPath, try_catch, new_URL. rewrite H.
  vm_compute. reflexivity.
Qed.

(** ** Running a computation step by step *)

Lemma bind_log {B : Type} (message : string) (k : () → M B) (w : world) :
  (log message ≫= k) w = k () (World (fs w) (console w ++ [message])).
Proof. reflexivity. Qed.

Lemma bind_existsSync {B : Type} (path : string) (k : bool → M B) (w : world) :
  (existsSync path ≫= k) w = k (bool_decide (is_Some (fs w !! path))) w.
Proof. reflexivity. Qed.

Lemma bind_mret {A B : Type} (a : A) (k : A → M B) (w : world) :
  (mret a ≫= k) w = k a w.
Proof. reflexivity. Qed.

Lemma bind_throw {A B : Type} (e : value) (k : A → M B) (w : world) :
  (throw e ≫= k) w = (Throw e, w).
Proof. reflexivity. Qed.

Lemma bind_lift {A B : Type} (c : completion A) (k : A → M B) (w : world) :
  (lift c ≫= k) w = match c with Normal a => k a w | Throw e => (Throw e, w) end.
Proof. by destruct c. Qed.

Lemma bind_run {A B : Type} (m : M A) (k : A → M B) (w : world) :
  (m ≫= k) w
  = match m w with
    | (Normal a, w') => k a w'
    | (Throw e, w') => (Throw e, w')
    end.
Proof. reflexivity. Qed.

Ltac run_step :=
  first [ rewrite bind_log | rewrite bind_existsSync | rewrite bind_mret
        | rewrite bind_throw | rewrite bind_lift ];
  cbv beta.

(** ** readUrlFile *)

Lemma trimStart_head (s : string) (c : ascii) (r : string) :
  trimStart s = String c r → is_space c = false.
Proof.
  induction s as [|d s IH]; simpl; [done|].
  destruct (is_space d) eqn:E; [done|]. intros [= -> ->]. done.
Qed.

Lemma trimEnd_head (c : ascii) (r : string) :
  is_space c = false → ∃ r', trimEnd (String c r) = String c r'.
Proof.
  intros Hc. simpl. destruct (trimEnd r); rewrite ?Hc; eauto.
Qed.

Lemma startsWith_hash (c : ascii) (r : string) :
  startsWith "#" (String c r) = Ascii.eqb c "#".
Proof.
  unfold startsWith.
  change (String.prefix "#" (String c r))
    with (if Ascii.ascii_dec "#" c then String.prefix "" r else false).
  destruct (Ascii.ascii_dec "#" c) as [<-|Hne].
  - by destruct r.
  - symmetry. apply Ascii.eqb_neq. congruence.
Qed.

Lemma kept_line_iff (line : string) :
  0 < String.length (trim line) ∧ startsWith "#" (trim line) = false
  ↔ ignored_line line = false.
Proof.
  unfold ignored_line, first_non_space, trim.
  destruct (trimStart line) as [|c r] eqn:E.
  - simpl. split; [lia | done].
  - apply trimStart_head in E. destruct (trimEnd_head c r E) as [r' ->].
    rewrite startsWith_hash.
    change (String.eqb (String c r') "") with false.
    change (String.length (String c r')) with (S (String.length r')).
    destruct (Ascii.eqb c "#"); simpl; split; try done; [by intros [_ ?] | split; [lia | done]].
Qed.

Lemma readUrlFile_filter (content : string) :
  filter (λ line, 0 < String.length line ∧ startsWith "#" line = false)
    (trim <$> split_chars (ascii_of_nat 10) content)
  = url_lines content.
Proof.
  unfold url_lines. induction (split_chars _ content) as [|line ls IH]; [done|].
  rewrite fmap_cons, !filter_cons, IH.
  destruct (decide (ignored_line line = false)) as [Hk|Hk];
    case_decide as Hc; try done; exfalso.
  - apply Hc, kept_line_iff, Hk.
  - apply Hk, kept_line_iff, Hc.
Qed.

(** C8. As a function of the file found at [filePath], [readUrlFile]
    returns the lines of the contents in order, each one trimmed, without
    the lines that are empty after trimming or whose first non-space
    character is [#]; it throws "No URLs found in file" when that list is
    empty and "URL file not found" when there is no file. The file of the
    scenario gives the two expected entries. *)
Theorem readUrlFile_lines (filePath : string) (w : world) :
  (readUrlFile filePath w).1
  = match fs w !! filePath with
    | None => Throw (Error ("URL file not found: " +:+ filePath))
    | Some Directory => Throw (Error "EISDIR: illegal operation on a directory, read")
    | Some (File content) =>
        match url_lines content with
        | [] => Throw (Error ("No URLs found in file: " +:+ filePath))
        | urls => Normal urls
        end
    end
  ∧ (readUrlFile "urls.txt" (World (<["urls.txt" := File scenario_file]> ∅) [])).1
    = Normal ["https://example.com/page"; "not a url"].
Proof.
  split; [|vm_compute; reflexivity].
  unfold readUrlFile. do 2 run_step. cbn [fs].
  destruct (fs w !! filePath) as [[content|]|] eqn:E.
  - rewrite bool_decide_eq_true_2 by eauto. cbn [negb]. run_step.
    rewrite bind_run. unfold readFile at 1. cbn [fs]. rewrite E.
    rewrite readUrlFile_filter. destruct (url_lines content); [done|].
    case_decide; [done|]. by do 2 run_step.
  - rewrite bool_decide_eq_true_2 by eauto. cbn [negb]. run_step.
    rewrite bind_run. unfold readFile at 1. cbn [fs]. by rewrite E.
  - rewrite bool_decide_eq_false_2 by (by intros [? ?]). cbn [negb]. by run_step.
Qed.

(** ** printBatchSummary *)

Lemma successes_failures (results : array) :
  successes results + failures results = length results.
Proof.
  unfold successes, failures. induction results as [|slot rs IH]; [done|].
  rewrite !filter_cons. destruct (succeeded slot); repeat case_decide; simpl; done || lia.
Qed.

Lemma printBatchSummary_loop_filled (results : array) (s f : nat) (w : world) :
  Forall (λ slot, is_Some slot) results →
  printBatchSummary_loop results s f w
  = (Normal (s + successes results, f + failures results),
     World (fs w) (console w ++ (results ≫= summary_rows))).
Proof.
  unfold successes, failures.
  intros H. revert s f w. induction H as [|slot rs [result ->] _ IH]; intros s f w.
  - simpl. unfold mret, M_ret. rewrite !Nat.add_0_r, app_nil_r. by destruct w.
  - rewrite !filter_cons. cbn [printBatchSummary_loop succeeded summary_rows mbind list_bind].
    do 2 run_step.
    destruct (truthy (get result "success")) eqn:E; rewrite IH; cbn [fs console];
      repeat case_decide; try done; rewrite <- !app_assoc; cbn [length app];
      do 3 f_equal; lia.
Qed.

Lemma report_rows (results : array) :
  Forall (λ slot, is_Some slot) results →
  ∃ rows,
    results ≫= summary_rows = concat rows
    ∧ Forall2 (λ slot pair, tagged (tag slot) pair) results rows.
Proof.
  intros H. exists (summary_rows <$> results). split.
  - clear H. induction results as [|slot rs IH]; [done|].
    cbn [mbind list_bind fmap list_fmap concat]. f_equal. exact IH.
  - apply Forall2_fmap_r, Forall_Forall2_diag.
    eapply Forall_impl; [exact H|]. intros slot [result ->].
    unfold compose, tag. cbn [succeeded summary_rows].
    destruct (truthy (get result "success")); eexists _, _; reflexivity.
Qed.

Lemma printBatchSummary_filled (results : array) (w : world) :
  Forall (λ slot, is_Some slot) results →
  printBatchSummary results w
  = (Normal (),
     World (fs w)
       (console w
        ++ [repeat_char "=" 70; "Batch Recording Summary"; repeat_char "=" 70]
        ++ (results ≫= summary_rows)
        ++ [repeat_char "-" 70;
            "Total: " +:+ decimal (length results)
            +:+ " | Success: " +:+ decimal (successes results)
            +:+ " | Failed: " +:+ decimal (failures results);
            repeat_char "=" 70])).
Proof.
  intros H. unfold printBatchSummary. do 3 run_step. rewrite bind_run.
  rewrite printBatchSummary_loop_filled by done.
  do 2 run_step. unfold log. cbn [fs console]. rewrite <- !app_assoc. done.
Qed.

(** C9. For an array whose every element is an object with a boolean
    [success], [printBatchSummary] prints the heading, one pair of rows
    per job in the order of the array, the first row tagged OK or FAIL by
    that [success], and the totals line; every element is counted once, as
    a success or as a failure, and the totals add up to the length of the
    array. *)
Theorem printBatchSummary_totals (results : array) (w : world) :
  Forall (λ slot, ∃ result b, slot = Some result ∧ result !! "success" = Some (VBool b))
    results →
  ∃ rows,
    printBatchSummary results w
    = (Normal (),
       World (fs w)
         (console w
          ++ [repeat_char "=" 70; "Batch Recording Summary"; repeat_char "=" 70]
          ++ concat rows
          ++ [repeat_char "-" 70;
              "Total: " +:+ decimal (length results)
              +:+ " | Success: " +:+ decimal (successes results)
              +:+ " | Failed: " +:+ decimal (failures results);
              repeat_char "=" 70]))
    ∧ Forall2 (λ slot pair, ∃ result b,
                 slot = Some result ∧ result !! "success" = Some (VBool b)
                 ∧ tagged (if b then "OK" else "FAIL") pair)
        results rows
    ∧ successes results + failures results = length results.
Proof.
  intros H.
  assert (Forall (λ slot : option object, is_Some slot) results) as Hfilled.
  { eapply Forall_impl; [exact H|]. intros slot (result & b & -> & _). eauto. }
  destruct (report_rows results Hfilled) as (rows & Hrows & Htags).
  exists rows. rewrite printBatchSummary_filled, Hrows by done.
  split; [done|]. split; [|apply successes_failures].
  clear Hrows Hfilled. induction Htags as [|slot pair rs rows Hpair _ IH]; [constructor|].
  apply Forall_cons in H as [(result & b & -> & Hb) H]. constructor; [|by apply IH].
  exists result, b. split; [done|]. split; [done|].
  unfold tag in Hpair. cbn [succeeded] in Hpair. unfold get in Hpair.
  rewrite Hb in Hpair. by destruct b.
Qed.

(** ** ensureOutputDir *)

Lemma ensureOutputDir_run (dir : string) (w : world) :
  ensureOutputDir mkdir dir w
  = match fs w !! dir with
    | Some _ => (Normal (), w)
    | None =>
        ((mkdir dir (fs w)).1,
         World (mkdir dir (fs w)).2 (console w ++ ["Creating output directory: " +:+ dir]))
    end.
Proof.
  unfold ensureOutputDir. run_step.
  destruct (fs w !! dir) as [n|] eqn:E.
  - rewrite bool_decide_eq_true_2 by eauto. done.
  - rewrite bool_decide_eq_false_2 by (by intros [? ?]). cbn [negb]. run_step.
    unfold mkdirSync. cbn [fs console]. by destruct (mkdir dir (fs w)).
Qed.

Lemma ensureOutputDir_Normal (dir : string) (w : world) :
  (ensureOutputDir mkdir dir w).1 = Normal () →
  ∃ w', ensureOutputDir mkdir dir w = (Normal (), w').
Proof.
  destruct (ensureOutputDir mkdir dir w) as [[[]|e] w']; [by eexists | done].
Qed.

(** ** The runners *)

Lemma generateOutputPath_outputPath_of (url : string) (index : nat) :
  generateOutputPath parseURL url index outputDir = Normal (outputPath_of url index).
Proof.
  unfold outputPath_of.
  destruct (generateOutputPath_Normal url index outputDir) as [p ->]. done.
Qed.

Lemma job_result_url (url outputPath : string) (result : object) :
  job_result url outputPath result !! "url"
  = match result !! "url" with Some v => Some v | None => Some (VStr url) end.
Proof.
  unfold job_result, spread. rewrite lookup_union.
  destruct (result !! "url") as [v|] eqn:E; rewrite lookup_insert_eq; done.
Qed.

Lemma sequential_context_jobIndex (url outputPath jobLabel : string) (i : nat) :
  sharedArgs !! "jobIndex" = None →
  sequential_context url outputPath jobLabel i !! "jobIndex"
  = Some (VNum (Z.of_nat i)).
Proof.
  intros H. unfold sequential_context, spread.
  rewrite lookup_union_r by done. by simplify_map_eq.
Qed.

Lemma parallel_context_jobIndex (w : nat) (url outputPath jobLabel : string) (i : nat) :
  sharedArgs !! "jobIndex" = None →
  parallel_context w url outputPath jobLabel i !! "jobIndex"
  = Some (VNum (Z.of_nat i)).
Proof.
  intros H. unfold parallel_context, spread.
  rewrite lookup_union_r by done. by simplify_map_eq.
Qed.

Lemma parallel_context_hints (w : nat) (url outputPath jobLabel : string) (i : nat) :
  sharedArgs !! "displayStartNumber" = None →
  sharedArgs !! "sinkName" = None →
  parallel_context w url outputPath jobLabel i !! "displayStartNumber"
  = Some (VNum (99 + Z.of_nat w * 10))
  ∧ parallel_context w url outputPath jobLabel i !! "sinkName"
    = Some (VStr ("recording_sink_" +:+ decimal w)).
Proof.
  intros H1 H2. unfold parallel_context, spread.
  rewrite !lookup_union_r by done. by simplify_map_eq.
Qed.

(** *** The sequential loop *)

Lemma runSequential_loop_cons (i : nat) (url : string) (rest : list string)
    (results : array) (w : world) :
  ∃ w1,
    fs w1 = fs w
    ∧ runSequential_loop i (url :: rest) results w
      = match recordFn (sequential_job_context url i) with
        | Normal result =>
            runSequential_loop (S i) rest
              (push results (job_result url (outputPath_of url i) result))
              (World (fs w1)
                 (console w1
                  ++ [job_outcome_line
                        ("[" +:+ decimal (i + 1) +:+ "/" +:+ decimal (length urls) +:+ "]")
                        result]))
        | Throw e => (Throw e, w1)
        end.
Proof.
  cbn [runSequential_loop]. run_step.
  rewrite generateOutputPath_outputPath_of. do 5 run_step.
  eexists. split; [|reflexivity]. done.
Qed.

Lemma runSequential_loop_resolves (rest : list string) (i : nat) (results : array)
    (w : world) :
  (∀ k url, rest !! k = Some url →
     ∃ result, recordFn (sequential_job_context url (i + k)) = Normal result) →
  ∃ rs w',
    runSequential_loop i rest results w = (Normal (results ++ rs), w')
    ∧ length rs = length rest
    ∧ ∀ k url, rest !! k = Some url →
        ∃ result,
          recordFn (sequential_job_context url (i + k)) = Normal result
          ∧ rs !! k = Some (Some (job_result url (outputPath_of url (i + k)) result)).
Proof.
  revert i results w. induction rest as [|url rest IH]; intros i results w H.
  - exists [], w. rewrite app_nil_r. split; [done|]. split; [done|]. intros k url [=].
  - destruct (runSequential_loop_cons i url rest results w) as (w1 & _ & ->).
    destruct (H 0 url eq_refl) as [result Hr]. rewrite Nat.add_0_r in Hr. rewrite Hr.
    edestruct (IH (S i)) as (rs & w' & -> & Hlen & Hrs).
    { intros k u Hk. replace (S i + k) with (i + S k) by lia. by apply (H (S k)). }
    exists (Some (job_result url (outputPath_of url i) result) :: rs), w'.
    unfold push. rewrite <- app_assoc. split; [done|]. split; [simpl; lia|].
    intros [|k] u Hk.
    + injection Hk as <-. rewrite Nat.add_0_r. eauto.
    + replace (i + S k) with (S i + k) by lia. by apply Hrs.
Qed.

Lemma runSequential_loop_rejects (rest : list string) (i k : nat) (url : string)
    (e : value) (results : array) (w : world) :
  rest !! k = Some url →
  (∀ j url', j < k → rest !! j = Some url' →
     ∃ result, recordFn (sequential_job_context url' (i + j)) = Normal result) →
  recordFn (sequential_job_context url (i + k)) = Throw e →
  (runSequential_loop i rest results w).1 = Throw e.
Proof.
  revert i k results w. induction rest as [|u rest IH]; intros i k results w Hk Hres He.
  - done.
  - destruct (runSequential_loop_cons i u rest results w) as (w1 & _ & ->).
    destruct k as [|k].
    + injection Hk as ->. rewrite Nat.add_0_r in He. by rewrite He.
    + destruct (Hres 0 u) as [result Hr]; [lia | done |].
      rewrite Nat.add_0_r in Hr. rewrite Hr.
      apply (IH (S i) k); [done | | by replace (S i + k) with (i + S k) by lia].
      intros j url' Hj Hl. replace (S i + j) with (i + S j) by lia.
      apply Hres; [lia | done].
Qed.

(** *** The worker pool *)

Lemma queue_lookup (i : nat) : queue !! i = (λ url, Job url i) <$> urls !! i.
Proof. apply list_lookup_imap. Qed.

(** What one run of the worker body does: it claims the job at the cursor,
    or returns when the cursor is at the end of the queue. *)
Lemma worker_run_spec (w : nat) (st : pool) :
  (nextIndex st < length urls
   ∧ ∃ url lines,
       urls !! nextIndex st = Some url
       ∧ worker_run w st
         = (Pool (S (nextIndex st)) (results st) (workers st) (output st ++ lines)
              (calls st ++ [(w, parallel_job_context w url (nextIndex st))]) (writes st),
            Awaiting url (nextIndex st) (outputPath_of url (nextIndex st))
              ("[W" +:+ decimal w +:+ "|" +:+ decimal (nextIndex st + 1) +:+ "/"
               +:+ decimal (length urls) +:+ "]")
              (recordFn (parallel_job_context w url (nextIndex st)))))
  ∨ (length urls ≤ nextIndex st ∧ worker_run w st = (st, Returned)).
Proof.
  assert (length (queue) = length urls) as Hq by apply length_imap.
  unfold worker_run.
  destruct (decide (nextIndex st < length (queue))) as [Hn|Hn];
    [left | right; split; [lia | done]].
  rewrite Hq in Hn.
  split; [done|]. destruct (lookup_lt_is_Some_2 urls (nextIndex st) Hn) as [url Hu].
  rewrite queue_lookup, Hu. cbn [fmap option_fmap option_map].
  rewrite generateOutputPath_outputPath_of. cbn [nextIndex results workers output calls writes].
  eexists url, _. split; [done|]. reflexivity.
Qed.

Lemma inflight_insert (ws : list worker_state) (w : nat) (s : worker_state) :
  ws !! w = Some s →
  ∃ others,
    inflight ws ≡ₚ from_option (λ i, [i]) [] (job_of s) ++ others
    ∧ ∀ s', inflight (<[w := s']> ws) ≡ₚ from_option (λ i, [i]) [] (job_of s') ++ others.
Proof.
  intros H. exists (inflight (take w ws) ++ inflight (drop (S w) ws)). split.
  - rewrite <- (take_drop_middle ws w s H) at 1. unfold inflight.
    rewrite omap_app. cbn [omap list_omap]. fold (omap job_of (drop (S w) ws)).
    destruct (job_of s); cbn [from_option]; [|done].
    by rewrite <- Permutation_middle.
  - intros s'. rewrite insert_take_drop by (by eapply lookup_lt_Some). unfold inflight.
    rewrite omap_app. cbn [omap list_omap]. fold (omap job_of (drop (S w) ws)).
    destruct (job_of s'); cbn [from_option]; [|done].
    by rewrite <- Permutation_middle.
Qed.

Lemma first_rejection_None (ws : list worker_state) :
  first_rejection ws = None ↔ Forall (λ s, ∀ e, s ≠ Rejected e) ws.
Proof.
  induction ws as [|s ws IH]; [done|]. rewrite Forall_cons.
  destruct s as [url index outputPath jobLabel promise| |e]; cbn [first_rejection].
  - rewrite IH. split; [by intros H; split | by intros [_ H]].
  - rewrite IH. split; [by intros H; split | by intros [_ H]].
  - split; [done | intros [H _]; by destruct (H e)].
Qed.

Lemma first_rejection_Some (ws : list worker_state) (e : value) :
  first_rejection ws = Some e → Rejected e ∈ ws.
Proof.
  induction ws as [|s ws IH]; [done|].
  destruct s; cbn [first_rejection]; intros H;
    try (apply elem_of_cons; right; by apply IH).
  injection H as ->. apply elem_of_cons. by left.
Qed.

Lemma awaiting_elem (ws : list worker_state) (w : nat) :
  w ∈ awaiting ws ↔ ∃ s, ws !! w = Some s ∧ is_awaiting s = true.
Proof.
  unfold awaiting. rewrite list_elem_of_filter, elem_of_seq. split.
  - intros [H _]. destruct (ws !! w) as [s|]; [eauto | done].
  - intros (s & Hs & Ha). rewrite Hs. split; [done|].
    apply lookup_lt_Some in Hs. lia.
Qed.

Lemma awaiting_nil (ws : list worker_state) :
  awaiting ws = [] → Forall (λ s, is_awaiting s = false) ws.
Proof.
  intros H. apply Forall_lookup. intros w s Hs.
  destruct (is_awaiting s) eqn:E; [|done].
  assert (w ∈ awaiting ws) as Hin by (apply awaiting_elem; eauto).
  rewrite H in Hin. by apply elem_of_nil in Hin.
Qed.

Lemma inflight_nil (ws : list worker_state) :
  Forall (λ s, is_awaiting s = false) ws → inflight ws = [].
Proof.
  induction 1 as [|s ws Hs _ IH]; [done|].
  unfold inflight. cbn [omap list_omap]. fold (inflight ws). rewrite IH.
  by destruct s.
Qed.

Lemma pick_elem (k w0 : nat) (l : list nat) :
  nth (k `mod` length (w0 :: l)) (w0 :: l) w0 ∈ w0 :: l.
Proof.
  assert (k `mod` length (w0 :: l) < length (w0 :: l)) as H
    by (apply Nat.mod_upper_bound; simpl; lia).
  destruct (lookup_lt_is_Some_2 _ _ H) as [x Hx].
  rewrite (nth_lookup_Some _ _ _ _ Hx). by eapply list_elem_of_lookup_2.
Qed.

Lemma first_rejection_insert (ws : list worker_state) (w : nat) (e : value) :
  first_rejection ws = None → w < length ws →
  first_rejection (<[w := Rejected e]> ws) = Some e.
Proof.
  revert w. induction ws as [|s ws IH]; intros w Hn Hw; [simpl in Hw; lia|].
  destruct w as [|w]; [done|].
  destruct s; cbn [first_rejection] in *; try done; apply IH; simpl in Hw; done || lia.
Qed.

Lemma pool_inv_init (out : list string) :
  pool_inv (Pool 0 (replicate (length urls) None) [] out [] []).
Proof.
  split; cbn [nextIndex results workers calls writes].
  - lia.
  - apply length_replicate.
  - intros w s [=].
  - done.
  - intros w i H. by apply elem_of_nil in H.
  - intros i Hi _. by apply lookup_replicate_2.
  - intros w c H. by apply elem_of_nil in H.
Qed.

Lemma store_in_range (results : array) (index : nat) (r : object) :
  index < length results → store results index r = <[index := Some r]> results.
Proof. intros H. unfold store. by case_decide. Qed.

(** A worker that continues after its [await] keeps the invariant: it
    stores one more result, or it is rejected. *)
Lemma pool_inv_resume (st : pool) (w : nat) :
  pool_inv st → first_rejection (workers st) = None → w ∈ awaiting (workers st) →
  pool_inv (worker_resume w st)
  ∧ length (workers (worker_resume w st)) = length (workers st)
  ∧ ((first_rejection (workers (worker_resume w st)) = None
      ∧ length (writes (worker_resume w st)) = S (length (writes st)))
     ∨ ∃ e, first_rejection (workers (worker_resume w st)) = Some e).
Proof.
  intros Hinv Hrej Hw.
  apply awaiting_elem in Hw as (s & Hs & Ha).
  destruct s as [url index outputPath jobLabel promise| |]; try done. clear Ha.
  pose proof (inv_workers _ Hinv w _ Hs) as (Hurl & -> & ->).
  assert (index < length urls) as Hidx by (by eapply lookup_lt_Some).
  assert (w < length (workers st)) as Hwlt by (by eapply lookup_lt_Some).
  destruct (inflight_insert _ _ _ Hs) as (others & Hin & Hins).
  cbn [job_of from_option] in Hin.
  pose proof (inv_claimed _ Hinv Hrej) as Hperm. rewrite Hin in Hperm.
  assert (index ∉ (writes st).*2) as Hfresh.
  { assert (NoDup ((writes st).*2 ++ [index] ++ others)) as Hnd
      by (rewrite Hperm; apply NoDup_seq).
    apply NoDup_app in Hnd as (_ & Hdisj & _). intros Hi.
    apply (Hdisj _ Hi). apply elem_of_cons. by left. }
  unfold worker_resume. rewrite Hs.
  destruct (recordFn (parallel_job_context w url index)) as [result|e] eqn:Hp.
  - rewrite store_in_range by (by rewrite (inv_length _ Hinv)).
    set (results1 := <[index := Some (job_result url (outputPath_of url index) result)]>
                       (results st)).
    assert (length results1 = length urls) as Hlen1
      by (unfold results1; by rewrite length_insert, (inv_length _ Hinv)).
    assert (∀ w' i, (w', i) ∈ writes st ++ [(w, index)] →
              w' < length (workers st)
              ∧ ∃ url' result',
                  urls !! i = Some url'
                  ∧ recordFn (parallel_job_context w' url' i) = Normal result'
                  ∧ results1 !! i
                    = Some (Some (job_result url' (outputPath_of url' i) result')))
      as Hwritten1.
    { intros w' i Hi. apply elem_of_app in Hi as [Hi|Hi].
      - destruct (inv_written _ Hinv _ _ Hi) as (Hw' & url' & result' & ? & ? & ?).
        split; [done|]. exists url', result'. split; [done|]. split; [done|].
        unfold results1. rewrite list_lookup_insert_ne; [done|].
        intros <-. apply Hfresh. apply list_elem_of_fmap. by exists (w', index).
      - apply list_elem_of_singleton in Hi as [= -> ->].
        split; [done|]. exists url, result. split; [done|]. split; [done|].
        unfold results1. apply list_lookup_insert_eq. by rewrite (inv_length _ Hinv). }
    assert (∀ i, i < length urls → i ∉ (writes st ++ [(w, index)]).*2 →
              results1 !! i = Some None) as Hunwritten1.
    { intros i Hi Hni. rewrite fmap_app in Hni.
      unfold results1. rewrite list_lookup_insert_ne.
      - apply (inv_unwritten _ Hinv); [done|]. intros ?. apply Hni, elem_of_app. by left.
      - intros <-. apply Hni, elem_of_app. right. by apply list_elem_of_singleton. }
    destruct (worker_run_spec w
                (Pool (nextIndex st) results1 (workers st)
                   (output st ++ [job_outcome_line jobLabel result]) (calls st)
                   (writes st ++ [(w, index)])))
      as [(Hlt & url' & lines & Hu' & ->) | (Hge & ->)];
      cbn [nextIndex results workers output calls writes] in *.
    + split; [|split; [by rewrite length_insert|]].
      * split; cbn [nextIndex results workers output calls writes].
        -- lia.
        -- done.
        -- intros w' s' Hs'. destruct (decide (w' = w)) as [->|Hne].
           ++ rewrite list_lookup_insert_eq in Hs' by done. injection Hs' as <-.
              cbn [worker_ok nextIndex]. done.
           ++ rewrite list_lookup_insert_ne in Hs' by done.
              pose proof (inv_workers _ Hinv _ _ Hs') as Hok.
              destruct s'; cbn [worker_ok nextIndex] in *; [done | lia | done].
        -- intros _. rewrite Hins. cbn [job_of from_option].
           rewrite fmap_app, seq_S, <- Hperm. cbn [fmap list_fmap snd].
           rewrite <- !app_assoc. do 2 apply Permutation_app_head.
           apply (Permutation_app_comm [nextIndex st]).
        -- intros w' i Hi. rewrite length_insert. by apply Hwritten1.
        -- done.
        -- intros w' c Hc. rewrite length_insert. apply elem_of_app in Hc as [Hc|Hc].
           ++ by apply (inv_calls _ Hinv).
           ++ apply list_elem_of_singleton in Hc as [= -> ->]. split; [done|]. eauto.
      * left. split; [|by rewrite length_app, Nat.add_1_r].
        apply first_rejection_None, Forall_insert; [by apply first_rejection_None | done].
    + split; [|split; [by rewrite length_insert|]].
      * split; cbn [nextIndex results workers output calls writes].
        -- apply (inv_next _ Hinv).
        -- done.
        -- intros w' s' Hs'. destruct (decide (w' = w)) as [->|Hne].
           ++ rewrite list_lookup_insert_eq in Hs' by done. injection Hs' as <-.
              cbn [worker_ok nextIndex]. pose proof (inv_next _ Hinv). lia.
           ++ rewrite list_lookup_insert_ne in Hs' by done.
              pose proof (inv_workers _ Hinv _ _ Hs') as Hok.
              destruct s'; cbn [worker_ok nextIndex] in *; done.
        -- intros _. rewrite Hins. cbn [job_of from_option].
           rewrite fmap_app, <- Hperm. cbn [fmap list_fmap snd app].
           by rewrite <- !app_assoc.
        -- intros w' i Hi. rewrite length_insert. by apply Hwritten1.
        -- done.
        -- intros w' c Hc. rewrite length_insert. by apply (inv_calls _ Hinv).
      * left. split; [|by rewrite length_app, Nat.add_1_r].
        apply first_rejection_None, Forall_insert; [by apply first_rejection_None | done].
  - cbn [nextIndex results workers output calls writes].
    split; [|split; [by rewrite length_insert|]].
    + split; cbn [nextIndex results workers output calls writes].
      * apply (inv_next _ Hinv).
      * apply (inv_length _ Hinv).
      * intros w' s' Hs'. destruct (decide (w' = w)) as [->|Hne].
        -- rewrite list_lookup_insert_eq in Hs' by done. injection Hs' as <-.
           cbn [worker_ok nextIndex]. eauto.
        -- rewrite list_lookup_insert_ne in Hs' by done.
           pose proof (inv_workers _ Hinv _ _ Hs') as Hok.
           destruct s'; cbn [worker_ok nextIndex] in *; done.
      * intros Hnone. by rewrite (first_rejection_insert _ _ e Hrej Hwlt) in Hnone.
      * intros w' i Hi. rewrite length_insert. by apply (inv_written _ Hinv).
      * apply (inv_unwritten _ Hinv).
      * intros w' c Hc. rewrite length_insert. by apply (inv_calls _ Hinv).
    + right. exists e. by apply first_rejection_insert.
Qed.

(** Launching one more worker keeps the invariant; no worker is rejected
    at launch and nothing is stored. *)
Lemma pool_inv_spawn (st : pool) :
  pool_inv st → first_rejection (workers st) = None →
  pool_inv (spawn st (length (workers st)))
  ∧ first_rejection (workers (spawn st (length (workers st)))) = None
  ∧ length (workers (spawn st (length (workers st)))) = S (length (workers st))
  ∧ writes (spawn st (length (workers st))) = writes st
  ∧ results (spawn st (length (workers st))) = results st.
Proof.
  intros Hinv Hrej. pose proof (inv_claimed _ Hinv Hrej) as Hperm.
  unfold spawn.
  destruct (worker_run_spec (length (workers st)) st)
    as [(Hlt & url' & lines & Hu' & ->) | (Hge & ->)];
    cbn [nextIndex results workers output calls writes].
  - split; [|split; [|split; [by rewrite length_app, Nat.add_1_r | done]]].
    + split; cbn [nextIndex results workers output calls writes].
      * lia.
      * apply (inv_length _ Hinv).
      * intros w' s' Hs'. apply lookup_app_Some in Hs' as [Hs'|[Hge Hs']].
        -- pose proof (inv_workers _ Hinv _ _ Hs') as Hok.
           destruct s'; cbn [worker_ok nextIndex] in *; [done | lia | done].
        -- apply list_lookup_singleton_Some in Hs' as [Hw' <-].
           replace w' with (length (workers st)) by lia. done.
      * intros _. unfold inflight. rewrite omap_app. fold (inflight (workers st)).
        cbn [omap list_omap job_of]. by rewrite app_assoc, Hperm, seq_S.
      * intros w' i Hi. rewrite length_app. cbn [length].
        destruct (inv_written _ Hinv _ _ Hi) as [? ?]. split; [lia | done].
      * apply (inv_unwritten _ Hinv).
      * intros w' c Hc. rewrite length_app. cbn [length].
        apply elem_of_app in Hc as [Hc|Hc].
        -- destruct (inv_calls _ Hinv _ _ Hc) as [? ?]. split; [lia | done].
        -- apply list_elem_of_singleton in Hc as [= -> ->]. split; [lia | eauto].
    + apply first_rejection_None, Forall_app. split; [by apply first_rejection_None|].
      by apply Forall_singleton.
  - split; [|split; [|split; [by rewrite length_app, Nat.add_1_r | done]]].
    + split; cbn [nextIndex results workers output calls writes].
      * apply (inv_next _ Hinv).
      * apply (inv_length _ Hinv).
      * intros w' s' Hs'. apply lookup_app_Some in Hs' as [Hs'|[_ Hs']].
        -- pose proof (inv_workers _ Hinv _ _ Hs') as Hok.
           destruct s'; cbn [worker_ok nextIndex] in *; done.
        -- apply list_lookup_singleton_Some in Hs' as [_ <-].
           cbn [worker_ok nextIndex]. pose proof (inv_next _ Hinv). lia.
      * intros _. unfold inflight. rewrite omap_app. fold (inflight (workers st)).
        cbn [omap list_omap job_of]. by rewrite app_nil_r.
      * intros w' i Hi. rewrite length_app. cbn [length].
        destruct (inv_written _ Hinv _ _ Hi) as [? ?]. split; [lia | done].
      * apply (inv_unwritten _ Hinv).
      * intros w' c Hc. rewrite length_app. cbn [length].
        destruct (inv_calls _ Hinv _ _ Hc) as [? ?]. split; [lia | done].
    + apply first_rejection_None, Forall_app. split; [by apply first_rejection_None|].
      by apply Forall_singleton.
Qed.

Lemma launch_loop_inv (k : nat) (st : pool) :
  pool_inv st → first_rejection (workers st) = None →
  pool_inv (foldl spawn st (seq (length (workers st)) k))
  ∧ first_rejection (workers (foldl spawn st (seq (length (workers st)) k))) = None
  ∧ length (workers (foldl spawn st (seq (length (workers st)) k)))
    = length (workers st) + k
  ∧ writes (foldl spawn st (seq (length (workers st)) k)) = writes st
  ∧ results (foldl spawn st (seq (length (workers st)) k)) = results st.
Proof.
  revert st. induction k as [|k IH]; intros st Hinv Hrej.
  - simpl. split; [done|]. split; [done|]. split; [lia | done].
  - rewrite <- cons_seq. simpl foldl.
    destruct (pool_inv_spawn st Hinv Hrej) as (Hinv' & Hrej' & Hlen & Hwr & Hres).
    rewrite <- Hlen. destruct (IH _ Hinv' Hrej') as (? & ? & ? & ? & ?).
    split; [done|]. split; [done|]. split; [lia|]. split; congruence.
Qed.

Lemma launch_inv (concurrency : option Z) (out : list string) :
  let st := launch (default 2%Z concurrency)
              (Pool 0 (replicate (length urls) None) [] out [] []) in
  pool_inv st
  ∧ first_rejection (workers st) = None
  ∧ length (workers st) = worker_count concurrency
  ∧ writes st = []
  ∧ results st = replicate (length urls) None.
Proof.
  apply (launch_loop_inv (worker_count concurrency)
           (Pool 0 (replicate (length urls) None) [] out [] []));
    [apply pool_inv_init | done].
Qed.

(** *** Waiting for the workers *)

Lemma settle_unfold (schedule : list nat) (st : pool) :
  settle schedule st
  = match first_rejection (workers st) with
    | Some e => (Some (Throw e), st)
    | None =>
        match awaiting (workers st) with
        | [] => (Some (Normal (results st)), st)
        | (w0 :: _) as suspended =>
            match schedule with
            | [] => (None, st)
            | k :: schedule' =>
                settle schedule'
                  (worker_resume (nth (k `mod` length suspended) suspended w0) st)
            end
        end
    end.
Proof. by destruct schedule. Qed.

(** The state in which the wait ends, and what the outcome says about it. *)
Lemma settle_inv (schedule : list nat) (st : pool) :
  pool_inv st →
  pool_inv (settle schedule st).2
  ∧ length (workers (settle schedule st).2) = length (workers st)
  ∧ match (settle schedule st).1 with
    | Some (Normal rs) =>
        rs = results (settle schedule st).2
        ∧ first_rejection (workers (settle schedule st).2) = None
        ∧ awaiting (workers (settle schedule st).2) = []
    | Some (Throw e) => first_rejection (workers (settle schedule st).2) = Some e
    | None => True
    end.
Proof.
  revert st. induction schedule as [|k schedule IH]; intros st Hinv;
    rewrite settle_unfold;
    destruct (first_rejection (workers st)) as [e|] eqn:Hrej; try done;
    destruct (awaiting (workers st)) as [|w0 l] eqn:Ha; try done.
  destruct (pool_inv_resume st (nth (k `mod` length (w0 :: l)) (w0 :: l) w0) Hinv Hrej)
    as (Hinv' & Hlen & _); [rewrite Ha; apply pick_elem|].
  destruct (IH _ Hinv') as (? & ? & ?). split; [done|]. split; [congruence | done].
Qed.

Lemma writes_lt (st : pool) (w : nat) :
  pool_inv st → first_rejection (workers st) = None → w ∈ awaiting (workers st) →
  length (writes st) < length urls.
Proof.
  intros Hinv Hrej Hw. apply awaiting_elem in Hw as (s & Hs & Ha).
  destruct s as [url index outputPath jobLabel promise| |]; try done.
  destruct (inflight_insert _ _ _ Hs) as (others & Hin & _).
  cbn [job_of from_option] in Hin.
  pose proof (inv_claimed _ Hinv Hrej) as Hperm. rewrite Hin in Hperm.
  apply Permutation_length in Hperm.
  rewrite !length_app, length_fmap, length_seq in Hperm. cbn [length] in Hperm.
  pose proof (inv_next _ Hinv). lia.
Qed.

(** Every step of the schedule stores one more result or ends the wait, so
    a schedule as long as the list of jobs not yet stored settles the pool. *)
Lemma settle_terminates (schedule : list nat) (st : pool) :
  pool_inv st →
  length urls - length (writes st) ≤ length schedule →
  (settle schedule st).1 ≠ None.
Proof.
  revert st. induction schedule as [|k schedule IH]; intros st Hinv Hlen;
    rewrite settle_unfold;
    destruct (first_rejection (workers st)) as [e|] eqn:Hrej; try done;
    destruct (awaiting (workers st)) as [|w0 l] eqn:Ha; try done.
  - assert (length (writes st) < length urls)
      by (apply (writes_lt st w0 Hinv Hrej); rewrite Ha; apply elem_of_cons; by left).
    cbn [length] in Hlen. lia.
  - assert (length (writes st) < length urls)
      by (apply (writes_lt st w0 Hinv Hrej); rewrite Ha; apply elem_of_cons; by left).
    destruct (pool_inv_resume st (nth (k `mod` length (w0 :: l)) (w0 :: l) w0) Hinv Hrej)
      as (Hinv' & _ & [[Hrej' Hw]|[e He]]); [rewrite Ha; apply pick_elem| |].
    + apply IH; [done|]. rewrite Hw. cbn [length] in Hlen. lia.
    + rewrite settle_unfold, He. done.
Qed.

(** A pool that has settled without a rejection has exhausted the queue:
    the cursor is at the end and every index is stored exactly once. *)
Lemma pool_exhausted (st : pool) :
  pool_inv st → first_rejection (workers st) = None → awaiting (workers st) = [] →
  0 < length (workers st) →
  nextIndex st = length urls ∧ (writes st).*2 ≡ₚ seq 0 (length urls).
Proof.
  intros Hinv Hrej Ha Hw.
  pose proof (awaiting_nil _ Ha) as Hna.
  pose proof (inv_claimed _ Hinv Hrej) as Hperm.
  rewrite (inflight_nil _ Hna), app_nil_r in Hperm.
  destruct (lookup_lt_is_Some_2 _ 0 Hw) as [s Hs].
  pose proof (inv_workers _ Hinv _ _ Hs) as Hok.
  pose proof (proj1 (Forall_lookup _ _) Hna _ _ Hs) as Hs1.
  pose proof (proj1 (Forall_lookup _ _) (proj1 (first_rejection_None _) Hrej) _ _ Hs) as Hs2.
  destruct s as [| |e]; [done | | by destruct (Hs2 e)].
  cbn [worker_ok] in Hok. by rewrite <- Hok.
Qed.

(** *** runParallel as a whole *)

Lemma run_pool_inv (concurrency : option Z) (schedule : list nat) (out : list string) :
  pool_inv (run_pool concurrency schedule out).2
  ∧ length (workers (run_pool concurrency schedule out).2) = worker_count concurrency
  ∧ match (run_pool concurrency schedule out).1 with
    | Some (Normal rs) =>
        rs = results (run_pool concurrency schedule out).2
        ∧ first_rejection (workers (run_pool concurrency schedule out).2) = None
        ∧ awaiting (workers (run_pool concurrency schedule out).2) = []
    | Some (Throw e) =>
        first_rejection (workers (run_pool concurrency schedule out).2) = Some e
    | None => True
    end.
Proof.
  unfold run_pool.
  destruct (launch_inv concurrency out) as (Hinv & _ & Hlen & _ & _).
  destruct (settle_inv schedule _ Hinv) as (? & ? & ?).
  split; [done|]. split; [congruence | done].
Qed.

Lemma run_pool_terminates (concurrency : option Z) (schedule : list nat)
    (out : list string) :
  length urls ≤ length schedule → (run_pool concurrency schedule out).1 ≠ None.
Proof.
  intros H. unfold run_pool.
  destruct (launch_inv concurrency out) as (Hinv & _ & _ & Hwr & _).
  apply settle_terminates; [done|]. rewrite Hwr. simpl. lia.
Qed.

(** A rejection of [runParallel] is a rejection of [recordFn]. *)
Lemma run_pool_Throw (concurrency : option Z) (schedule : list nat) (out : list string)
    (e : value) :
  (run_pool concurrency schedule out).1 = Some (Throw e) →
  ∃ w url index,
    urls !! index = Some url ∧ recordFn (parallel_job_context w url index) = Throw e.
Proof.
  intros H. destruct (run_pool_inv concurrency schedule out) as (Hinv & _ & Hr).
  rewrite H in Hr. apply first_rejection_Some, list_elem_of_lookup_1 in Hr as [w Hw].
  apply (inv_workers _ Hinv _ _ Hw).
Qed.

(** With at least one worker, a normal return of [runParallel] has
    exhausted the queue. *)
Lemma run_pool_Normal (concurrency : option Z) (schedule : list nat) (out : list string)
    (rs : array) :
  0 < worker_count concurrency →
  (run_pool concurrency schedule out).1 = Some (Normal rs) →
  rs = results (run_pool concurrency schedule out).2
  ∧ nextIndex (run_pool concurrency schedule out).2 = length urls
  ∧ (writes (run_pool concurrency schedule out).2).*2 ≡ₚ seq 0 (length urls).
Proof.
  intros HW H. destruct (run_pool_inv concurrency schedule out) as (Hinv & Hlen & Hr).
  rewrite H in Hr. destruct Hr as (-> & Hrej & Ha). split; [done|].
  apply pool_exhausted; [done | done | done | by rewrite Hlen].
Qed.

Lemma worker_count_pos (concurrency : option Z) :
  (1 ≤ default 2 concurrency)%Z → 0 < length urls → 0 < worker_count concurrency.
Proof. unfold worker_count. lia. Qed.

Lemma NoDup_snd_unique (l : list (nat * nat)) (a b i : nat) :
  NoDup (l.*2) → (a, i) ∈ l → (b, i) ∈ l → a = b.
Proof.
  induction l as [|[c j] l IH]; intros Hnd Ha Hb; [by apply elem_of_nil in Ha|].
  rewrite fmap_cons in Hnd. apply NoDup_cons in Hnd as [Hj Hnd]. cbn [snd] in Hj.
  apply elem_of_cons in Ha as [Ha|Ha]; apply elem_of_cons in Hb as [Hb|Hb];
    simplify_eq.
  - done.
  - exfalso. apply Hj. apply list_elem_of_fmap. by exists (b, j).
  - exfalso. apply Hj. apply list_elem_of_fmap. by exists (a, j).
  - by apply IH.
Qed.

(** Every slot of a normally returned array holds the result of the job at
    that index. *)
Lemma run_pool_Normal_slots (concurrency : option Z) (schedule : list nat)
    (out : list string) (rs : array) (i : nat) (url : string) :
  0 < worker_count concurrency →
  (run_pool concurrency schedule out).1 = Some (Normal rs) →
  urls !! i = Some url →
  ∃ w result,
    (w, i) ∈ writes (run_pool concurrency schedule out).2
    ∧ w < worker_count concurrency
    ∧ recordFn (parallel_job_context w url i) = Normal result
    ∧ rs !! i = Some (Some (job_result url (outputPath_of url i) result)).
Proof.
  intros HW H Hi. destruct (run_pool_Normal _ _ _ _ HW H) as (-> & _ & Hperm).
  destruct (run_pool_inv concurrency schedule out) as (Hinv & Hlen & _).
  assert (i ∈ (writes (run_pool concurrency schedule out).2).*2) as Hin.
  { rewrite Hperm. apply elem_of_seq. apply lookup_lt_Some in Hi. lia. }
  apply list_elem_of_fmap in Hin as ([w i'] & -> & Hin). cbn [snd] in *.
  destruct (inv_written _ Hinv _ _ Hin) as (Hw & url' & result & Hu & Hr & Hres).
  assert (url' = url) as -> by congruence.
  exists w, result. rewrite <- Hlen. done.
Qed.

Lemma runParallel_run_pool (concurrency : option Z) (schedule : list nat) (w : world) :
  (ensureOutputDir mkdir outputDir w).1 = Normal () →
  ∃ w1,
    runParallel concurrency schedule w
    = ((run_pool concurrency schedule (console w1)).1,
       World (fs w1) (output (run_pool concurrency schedule (console w1)).2)).
Proof.
  intros Hens. unfold runParallel.
  destruct (ensureOutputDir_Normal outputDir w Hens) as [w1 ->].
  exists w1. by destruct (run_pool concurrency schedule (console w1)).
Qed.

Lemma runSequential_loop_run (w : world) :
  (ensureOutputDir mkdir outputDir w).1 = Normal () →
  ∃ w1, runSequential w = runSequential_loop 0 urls [] w1.
Proof.
  intros Hens. unfold runSequential. rewrite bind_run.
  destruct (ensureOutputDir_Normal outputDir w Hens) as [w1 ->]. by exists w1.
Qed.

(** A runner that returns has found or made its directory. *)
Lemma runSequential_ensured (w : world) (rs : array) (w' : world) :
  runSequential w = (Normal rs, w') → (ensureOutputDir mkdir outputDir w).1 = Normal ().
Proof.
  unfold runSequential. rewrite bind_run.
  by destruct (ensureOutputDir mkdir outputDir w) as [[[]|e] w1].
Qed.

Lemma runParallel_ensured (concurrency : option Z) (schedule : list nat) (w : world)
    (rs : array) (w' : world) :
  runParallel concurrency schedule w = (Some (Normal rs), w') →
  (ensureOutputDir mkdir outputDir w).1 = Normal ().
Proof.
  unfold runParallel. by destruct (ensureOutputDir mkdir outputDir w) as [[[]|e] w1].
Qed.

(** *** The result array and the input list *)

(** C1, as the code has it. Where the output directory is there or can be
    made, and every call of [recordFn] resolves to a
    result object without a [url] property of its own, [runSequential]
    returns an array of the input's length whose [i]-th element has the
    [i]-th input URL as its [url], and so does [runParallel] at every
    concurrency of at least 1: whatever the order in which the promises
    settle, an array that it returns is in input order, and it returns one
    once every job has settled. *)
Theorem results_in_input_order (concurrency : option Z) (w : world) :
  (ensureOutputDir mkdir outputDir w).1 = Normal () →
  (∀ context, ∃ result, recordFn context = Normal result ∧ result !! "url" = None) →
  (1 ≤ default 2 concurrency)%Z →
  (∃ rs w', runSequential w = (Normal rs, w') ∧ in_input_order rs)
  ∧ (∀ schedule rs w',
       runParallel concurrency schedule w = (Some (Normal rs), w') → in_input_order rs)
  ∧ (∀ schedule, length urls ≤ length schedule →
       ∃ rs w', runParallel concurrency schedule w = (Some (Normal rs), w')).
Proof.
  intros Hens H HC. split; [|split].
  - destruct (runSequential_loop_run w Hens) as [w1 ->].
    destruct (runSequential_loop_resolves urls 0 [] w1) as (rs & w' & -> & Hlen & Hrs).
    { intros k url _. destruct (H (sequential_job_context url (0 + k))) as (r & ? & _).
      eauto. }
    exists rs, w'. split; [done|]. split; [done|]. intros i url Hi.
    destruct (Hrs i url Hi) as (result & Hr & Hl). eexists. split; [exact Hl|].
    rewrite job_result_url.
    destruct (H (sequential_job_context url (0 + i))) as (r & Hr' & Hnone).
    rewrite Hr in Hr'. injection Hr' as ->. by rewrite Hnone.
  - intros schedule rs w' Hpar.
    destruct (runParallel_run_pool concurrency schedule w Hens) as [w1 Heq].
    rewrite Heq in Hpar. injection Hpar as Hr _.
    destruct (run_pool_inv concurrency schedule (console w1)) as (Hinv & _ & Hm).
    rewrite Hr in Hm. destruct Hm as (Hrs & _ & _). split.
    + rewrite Hrs. apply (inv_length _ Hinv).
    + intros i url Hi.
      assert (0 < worker_count concurrency) as HW
        by (apply worker_count_pos; [done | apply lookup_lt_Some in Hi; lia]).
      destruct (run_pool_Normal_slots _ _ _ _ _ _ HW Hr Hi) as (w0 & result & _ & _ & Hp & Hl).
      eexists. split; [exact Hl|]. rewrite job_result_url.
      destruct (H (parallel_job_context w0 url i)) as (r & Hr' & Hnone).
      rewrite Hp in Hr'. injection Hr' as ->. by rewrite Hnone.
  - intros schedule Hlen.
    destruct (runParallel_run_pool concurrency schedule w Hens) as [w1 ->].
    pose proof (run_pool_terminates concurrency schedule (console w1) Hlen) as Hsome.
    destruct ((run_pool concurrency schedule (console w1)).1) as [[rs|e]|] eqn:Hr;
      [by eauto | | done].
    apply run_pool_Throw in Hr as (w0 & url & index & _ & Hthrow).
    destruct (H (parallel_job_context w0 url index)) as (r & Hr' & _). congruence.
Qed.

(** C2. With a concurrency between 1 and the number of jobs, a normal
    return of [runParallel] finds the queue exhausted: the cursor is at the
    end, the assignments to the result array hit every index from 0 to N-1
    exactly once, each index by one worker only, and every slot is filled.
    When every call of [recordFn] resolves, [runParallel] does return
    normally once the N jobs have settled. *)
Theorem pool_exhausts_queue (C : Z) (schedule : list nat) (out : list string) :
  (1 ≤ C ≤ Z.of_nat (length urls))%Z →
  (∀ rs st, run_pool (Some C) schedule out = (Some (Normal rs), st) →
     nextIndex st = length urls
     ∧ (writes st).*2 ≡ₚ seq 0 (length urls)
     ∧ (∀ i, i < length urls →
          ∃ w, (w, i) ∈ writes st
               ∧ w < length (workers st)
               ∧ ∀ w', (w', i) ∈ writes st → w' = w)
     ∧ (∀ i, i < length urls → ∃ r, rs !! i = Some (Some r)))
  ∧ ((∀ context, ∃ result, recordFn context = Normal result) →
     length urls ≤ length schedule →
     ∃ rs st, run_pool (Some C) schedule out = (Some (Normal rs), st)).
Proof.
  intros HC. split.
  - intros rs st Hrun.
    assert ((run_pool (Some C) schedule out).1 = Some (Normal rs)) as Hr by (by rewrite Hrun).
    assert ((run_pool (Some C) schedule out).2 = st) as Hst by (by rewrite Hrun).
    assert (0 < worker_count (Some C)) as HW by (unfold worker_count; simpl; lia).
    destruct (run_pool_Normal _ _ _ _ HW Hr) as (_ & Hnext & Hperm).
    destruct (run_pool_inv (Some C) schedule out) as (_ & Hlen & _).
    rewrite Hst in Hnext, Hperm, Hlen.
    split; [done|]. split; [done|]. split.
    + intros i Hi. destruct (lookup_lt_is_Some_2 urls i Hi) as [url Hu].
      destruct (run_pool_Normal_slots _ _ _ _ _ _ HW Hr Hu) as (w & result & Hin & Hw & _).
      rewrite Hst in Hin. exists w. split; [done|]. split; [by rewrite Hlen|].
      intros w' Hin'. eapply NoDup_snd_unique; [|exact Hin'|exact Hin].
      rewrite Hperm. apply NoDup_seq.
    + intros i Hi. destruct (lookup_lt_is_Some_2 urls i Hi) as [url Hu].
      destruct (run_pool_Normal_slots _ _ _ _ _ _ HW Hr Hu) as (w & result & _ & _ & _ & Hl).
      eauto.
  - intros H Hlen.
    pose proof (run_pool_terminates (Some C) schedule out Hlen) as Hsome.
    destruct (run_pool (Some C) schedule out) as [[[rs|e]|] st] eqn:Hr;
      [by eauto | | done].
    assert ((run_pool (Some C) schedule out).1 = Some (Throw e)) as Hr1 by (by rewrite Hr).
    apply run_pool_Throw in Hr1 as (w0 & url & index & _ & Hthrow).
    destruct (H (parallel_job_context w0 url index)) as (r & Hr'). congruence.
Qed.

(** C3, as the code has it. An exception that [recordFn] raises for a job
    is not caught where the job is invoked: [runSequential] throws it, and
    [runParallel] at a concurrency of at least 1 throws it once the jobs
    have settled; neither returns a result array. Here the output directory
    is there or can be made, and [recordFn] raises [e] for the job at index
    [i] and resolves for every other job. *)
Theorem exception_aborts_run (i : nat) (url : string) (e : value)
    (concurrency : option Z) (w : world) :
  (ensureOutputDir mkdir outputDir w).1 = Normal () →
  urls !! i = Some url →
  sharedArgs !! "jobIndex" = None →
  (∀ context, context !! "jobIndex" = Some (VNum (Z.of_nat i)) →
     recordFn context = Throw e) →
  (∀ context, context !! "jobIndex" ≠ Some (VNum (Z.of_nat i)) →
     ∃ result, recordFn context = Normal result) →
  (1 ≤ default 2 concurrency)%Z →
  (runSequential w).1 = Throw e
  ∧ ∀ schedule, length urls ≤ length schedule →
      (runParallel concurrency schedule w).1 = Some (Throw e).
Proof.
  intros Hens Hi Hshared Hthrow Hres HC. split.
  - destruct (runSequential_loop_run w Hens) as [w1 ->].
    apply (runSequential_loop_rejects urls 0 i url); [done | |].
    + intros j url' Hj _. apply Hres.
      unfold sequential_job_context. rewrite sequential_context_jobIndex by done.
      intros [= ?]. lia.
    + apply Hthrow. unfold sequential_job_context.
      by rewrite sequential_context_jobIndex.
  - intros schedule Hlen.
    destruct (runParallel_run_pool concurrency schedule w Hens) as [w1 ->]. cbn [fst].
    pose proof (run_pool_terminates concurrency schedule (console w1) Hlen) as Hsome.
    destruct ((run_pool concurrency schedule (console w1)).1) as [[rs|e']|] eqn:Hr;
      [exfalso | | done].
    + assert (0 < worker_count concurrency) as HW
        by (apply worker_count_pos; [done | apply lookup_lt_Some in Hi; lia]).
      destruct (run_pool_Normal_slots _ _ _ _ _ _ HW Hr Hi) as (w0 & result & _ & _ & Hp & _).
      rewrite Hthrow in Hp; [done|].
      unfold parallel_job_context. by rewrite parallel_context_jobIndex.
    + apply run_pool_Throw in Hr as (w0 & url' & index & _ & Hp).
      destruct (decide (index = i)) as [->|Hne].
      * rewrite Hthrow in Hp; [congruence|].
        unfold parallel_job_context. by rewrite parallel_context_jobIndex.
      * destruct (Hres (parallel_job_context w0 url' index)) as [r Hr']; [|congruence].
        unfold parallel_job_context. rewrite parallel_context_jobIndex by done.
        intros [= ?]. lia.
Qed.

(** *** Workers and their resource hints *)

Lemma append_inj (s t u : string) : s +:+ t = s +:+ u → t = u.
Proof.
  induction s as [|c s IH]; [done|]. intros H.
  change (String c (s +:+ t) = String c (s +:+ u)) in H. injection H as H. by apply IH.
Qed.

Lemma decimal_inj (n m : nat) : decimal n = decimal m → n = m.
Proof.
  intros H. pose proof (read_decimal_decimal n) as Hn.
  rewrite H, read_decimal_decimal in Hn. congruence.
Qed.

(** C6, as the code has it. [runParallel] launches min(concurrency,
    urls.length) workers (none when that is negative), with ids from 0.
    When [sharedArgs] has no [displayStartNumber] and no [sinkName] of its
    own, every context that worker [w] hands to [recordFn] carries
    [displayStartNumber = 99 + w * 10] and [sinkName = "recording_sink_" w],
    so that two different workers never share either of them. *)
Theorem worker_hints_distinct (concurrency : option Z) (schedule : list nat)
    (out : list string) :
  sharedArgs !! "displayStartNumber" = None →
  sharedArgs !! "sinkName" = None →
  Z.of_nat (length (workers (run_pool concurrency schedule out).2))
  = (0 `max` (default 2 concurrency `min` Z.of_nat (length urls)))%Z
  ∧ (∀ w context, (w, context) ∈ calls (run_pool concurrency schedule out).2 →
       w < length (workers (run_pool concurrency schedule out).2)
       ∧ context !! "displayStartNumber" = Some (VNum (99 + Z.of_nat w * 10))
       ∧ context !! "sinkName" = Some (VStr ("recording_sink_" +:+ decimal w)))
  ∧ (∀ w1 context1 w2 context2,
       (w1, context1) ∈ calls (run_pool concurrency schedule out).2 →
       (w2, context2) ∈ calls (run_pool concurrency schedule out).2 →
       w1 ≠ w2 →
       context1 !! "displayStartNumber" ≠ context2 !! "displayStartNumber"
       ∧ context1 !! "sinkName" ≠ context2 !! "sinkName").
Proof.
  intros Hd Hs. destruct (run_pool_inv concurrency schedule out) as (Hinv & Hlen & _).
  assert (∀ w context, (w, context) ∈ calls (run_pool concurrency schedule out).2 →
            w < length (workers (run_pool concurrency schedule out).2)
            ∧ context !! "displayStartNumber" = Some (VNum (99 + Z.of_nat w * 10))
            ∧ context !! "sinkName" = Some (VStr ("recording_sink_" +:+ decimal w)))
    as Hcalls.
  { intros w context Hc.
    destruct (inv_calls _ Hinv _ _ Hc) as (Hw & url & index & _ & ->).
    split; [done|]. unfold parallel_job_context.
    apply parallel_context_hints; assumption. }
  split; [|split; [done|]].
  - rewrite Hlen. unfold worker_count. lia.
  - intros w1 c1 w2 c2 H1 H2 Hne.
    destruct (Hcalls _ _ H1) as (_ & -> & ->). destruct (Hcalls _ _ H2) as (_ & -> & ->).
    split.
    + intros [= ?]. lia.
    + intros [= H]. apply append_inj, decimal_inj in H. done.
Qed.

(** C10. With a concurrency of 0 or less, [runParallel] launches no worker,
    calls [recordFn] for no job, stores nothing, and, where the output
    directory is there or can be made, returns at once an array of the
    input's length with every slot empty; the pool does not throw. *)
Theorem no_workers_empty_array (C : Z) (schedule : list nat) (w : world) :
  (C ≤ 0)%Z →
  (ensureOutputDir mkdir outputDir w).1 = Normal () →
  (∃ w', runParallel (Some C) schedule w
         = (Some (Normal (replicate (length urls) None)), w'))
  ∧ ∀ out,
      run_pool (Some C) schedule out
      = (Some (Normal (replicate (length urls) None)),
         Pool 0 (replicate (length urls) None) [] out [] []).
Proof.
  intros HC Hens.
  assert (∀ out,
            run_pool (Some C) schedule out
            = (Some (Normal (replicate (length urls) None)),
               Pool 0 (replicate (length urls) None) [] out [] [])) as Hpool.
  { intros out. unfold run_pool, launch. change (default 2%Z (Some C)) with C.
    replace (Z.to_nat (C `min` Z.of_nat (length urls))) with 0 by lia.
    simpl (foldl _ _ _). by rewrite settle_unfold. }
  split; [|done].
  destruct (runParallel_run_pool (Some C) schedule w Hens) as [w1 ->].
  rewrite Hpool. by eexists.
Qed.

(** * Further properties *)

(** ** ensureOutputDir *)

(** X1. [ensureOutputDir] calls the platform's [mkdirSync] only for a path
    that is absent. A path that is there, directory or regular file, is left
    as it is and nothing is logged. An absent path is announced in the log
    and handed to [mkdirSync], and an exception of [mkdirSync] is the only
    one that [ensureOutputDir] throws. Where a [mkdirSync] that returns has
    made the directory, a call that returns for an absent path leaves a
    directory there, and a second call is without effect. *)
Theorem ensureOutputDir_idempotent (dir : string) (w : world) :
  (∀ files, (mkdir dir files).1 = Normal () → (mkdir dir files).2 !! dir = Some Directory) →
  (fs w !! dir ≠ None → ensureOutputDir mkdir dir w = (Normal (), w))
  ∧ (∀ e w', ensureOutputDir mkdir dir w = (Throw e, w') →
       fs w !! dir = None ∧ (mkdir dir (fs w)).1 = Throw e)
  ∧ ∀ w', ensureOutputDir mkdir dir w = (Normal (), w') →
      (fs w !! dir = None →
       fs w' !! dir = Some Directory
       ∧ console w' = console w ++ ["Creating output directory: " +:+ dir])
      ∧ ensureOutputDir mkdir dir w' = (Normal (), w').
Proof.
  intros Hmade. rewrite ensureOutputDir_run.
  destruct (fs w !! dir) as [n|] eqn:E.
  - split; [done|]. split; [done|]. intros w' [= <-]. split; [done|].
    by rewrite ensureOutputDir_run, E.
  - split; [done|]. split; [by intros e w' [= -> _]|].
    intros w' [= Hc <-]. specialize (Hmade _ Hc). cbn [fs console]. split; [done|].
    rewrite ensureOutputDir_run. cbn [fs]. by rewrite Hmade.
Qed.

(** ** Strings, once more *)

Lemma append_cons (c : ascii) (s t : string) : String c s +:+ t = String c (s +:+ t).
Proof. reflexivity. Qed.

Lemma append_nil_r (s : string) : s +:+ "" = s.
Proof. induction s as [|c s IH]; [done|]. by rewrite append_cons, IH. Qed.

Lemma every_char_append (p : ascii → bool) (s t : string) :
  every_char p (s +:+ t) = every_char p s && every_char p t.
Proof.
  induction s as [|c s IH]; [done|].
  rewrite append_cons. cbn [every_char]. rewrite IH. by destruct (p c).
Qed.

Lemma every_char_impl (p q : ascii → bool) (s : string) :
  (∀ c, p c = true → q c = true) → every_char p s = true → every_char q s = true.
Proof.
  intros H. induction s as [|c s IH]; [done|]. cbn [every_char].
  intros [Hc Hs]%andb_prop. by rewrite (H c Hc), IH.
Qed.

Lemma every_char_map_chars (p : ascii → bool) (f : ascii → ascii) (s : string) :
  (∀ c, p (f c) = true) → every_char p (map_chars f s) = true.
Proof.
  intros H. induction s as [|c s IH]; [done|]. cbn [map_chars every_char].
  by rewrite H, IH.
Qed.

Lemma every_char_map_chars_keep (p : ascii → bool) (f : ascii → ascii) (s : string) :
  (∀ c, p c = true → p (f c) = true) →
  every_char p s = true → every_char p (map_chars f s) = true.
Proof.
  intros H. induction s as [|c s IH]; [done|]. cbn [map_chars every_char].
  intros [Hc Hs]%andb_prop. by rewrite (H c Hc), IH.
Qed.

Lemma every_char_substring (p : ascii → bool) (n m : nat) (s : string) :
  every_char p s = true → every_char p (String.substring n m s) = true.
Proof.
  revert n m. induction s as [|c s IH]; intros n m H.
  - by destruct n, m.
  - cbn [every_char] in H. apply andb_prop in H as [Hc Hs].
    destruct n as [|n]; [destruct m as [|m]; [done|]|]; simpl.
    + by rewrite Hc, IH.
    + by apply IH.
Qed.

Lemma every_char_repeat_char (p : ascii → bool) (c : ascii) (n : nat) :
  p c = true → every_char p (repeat_char c n) = true.
Proof. intros H. induction n as [|n IH]; [done|]. cbn. by rewrite H, IH. Qed.

Lemma every_char_digit_uint (d : Decimal.uint) :
  every_char is_digit (NilEmpty.string_of_uint d) = true.
Proof. induction d; [done|by cbn [NilEmpty.string_of_uint every_char]; rewrite IHd..]. Qed.

Lemma every_char_digit_decimal (n : nat) : every_char is_digit (decimal n) = true.
Proof.
  unfold decimal, NilZero.string_of_uint.
  destruct (Nat.to_uint n) eqn:E; [done|rewrite <- E; apply every_char_digit_uint..].
Qed.

Lemma every_char_digit_index_prefix (index : nat) :
  every_char is_digit (index_prefix index) = true.
Proof.
  unfold index_prefix, padStart. rewrite every_char_append.
  by rewrite every_char_repeat_char, every_char_digit_decimal.
Qed.

(** Two numerals followed by a dash agree when the texts agree. *)
Lemma digits_dash_inj (a b r1 r2 : string) :
  every_char is_digit a = true → every_char is_digit b = true →
  a +:+ String "-" r1 = b +:+ String "-" r2 → a = b.
Proof.
  revert b. induction a as [|c a IH]; intros [|d b] Ha Hb H; try done.
  - rewrite append_cons in H. injection H as <- _.
    cbn [every_char] in Hb. by apply andb_prop in Hb as [? _].
  - rewrite append_cons in H. injection H as -> _.
    cbn [every_char] in Ha. by apply andb_prop in Ha as [? _].
  - rewrite !append_cons in H. injection H as -> H.
    cbn [every_char] in Ha, Hb. apply andb_prop in Ha as [_ Ha], Hb as [_ Hb].
    f_equal. by apply IH.
Qed.

(** ** path.join with a plain file name *)

Lemma split_chars_cons (sep : ascii) (s : string) :
  ∃ h t, split_chars sep s = h :: t.
Proof.
  destruct s as [|c r]; [by eexists _, _|]. cbn [split_chars].
  destruct (Ascii.eqb c sep); [by eexists _, _|].
  destruct (split_chars sep r); by eexists _, _.
Qed.

Lemma split_chars_app (sep : ascii) (a b : string) :
  split_chars sep (a +:+ String sep b) = split_chars sep a ++ split_chars sep b.
Proof.
  induction a as [|c a IH].
  - change ("" +:+ String sep b) with (String sep b). cbn [split_chars].
    by rewrite Ascii.eqb_refl.
  - rewrite append_cons. cbn [split_chars]. rewrite IH.
    destruct (Ascii.eqb c sep); [done|].
    by destruct (split_chars_cons sep a) as (h & t & ->).
Qed.

Lemma split_chars_no_slash (name : string) :
  no_slash name = true → split_chars "/" name = [name].
Proof.
  unfold no_slash. induction name as [|c r IH]; [done|]. cbn [every_char split_chars].
  intros [Hc Hr]%andb_prop. apply negb_true_iff in Hc. by rewrite Hc, IH.
Qed.

Lemma join_with_snoc (sep : string) (l : list string) (x : string) :
  join_with sep (l ++ [x])
  = match l with [] => x | _ => join_with sep l +:+ sep +:+ x end.
Proof.
  induction l as [|a [|b l] IH]; [done..|].
  change (join_with sep ((a :: b :: l) ++ [x]))
    with (a +:+ sep +:+ join_with sep ((b :: l) ++ [x])).
  rewrite IH.
  change (join_with sep (a :: b :: l)) with (a +:+ sep +:+ join_with sep (b :: l)).
  by rewrite <- !append_assoc.
Qed.

Lemma last_char_append (a b : string) :
  b ≠ "" → Path.last_char (a +:+ b) = Path.last_char b.
Proof.
  intros Hb. induction a as [|c a IH]; [done|]. rewrite append_cons.
  rewrite <- IH. cbn [Path.last_char].
  destruct (a +:+ b) eqn:E; [|done]. destruct a; [|done]. by destruct b.
Qed.

Lemma last_char_no_slash (name : string) :
  no_slash name = true → Path.last_char name ≠ Some "/"%char.
Proof.
  unfold no_slash. induction name as [|c [|d r] IH]; [done| |].
  - cbn. intros [Hc _]%andb_prop [= ->]. done.
  - intros [_ H]%andb_prop. by apply IH.
Qed.

Lemma simple_name_spec (name : string) :
  simple_name name = true →
  no_slash name = true ∧ name ≠ "" ∧ name ≠ "." ∧ name ≠ "..".
Proof.
  unfold simple_name. intros [[[H1 H2]%andb_prop H3]%andb_prop H4]%andb_prop.
  apply negb_true_iff, String.eqb_neq in H2, H3, H4. done.
Qed.

Lemma push_segment_simple (above : bool) (stack : list string) (name : string) :
  simple_name name = true → Path.push_segment above stack name = name :: stack.
Proof.
  intros (_ & H1 & H2 & H3)%simple_name_spec. unfold Path.push_segment.
  apply String.eqb_neq in H1, H2, H3. by rewrite H1, H2, H3.
Qed.

Lemma startsWith_char (p c : ascii) (r : string) :
  startsWith (String p "") (String c r) = Ascii.eqb c p.
Proof.
  unfold startsWith.
  change (String.prefix (String p "") (String c r))
    with (if Ascii.ascii_dec p c then String.prefix "" r else false).
  destruct (Ascii.ascii_dec p c) as [<-|Hne].
  - rewrite Ascii.eqb_refl. by destruct r.
  - symmetry. apply Ascii.eqb_neq. congruence.
Qed.

Lemma normalize_simple (dir name : string) :
  dir ≠ "" → simple_name name = true →
  Path.normalize (dir +:+ String "/" name)
  = (if startsWith "/" dir then "/" else "")
    +:+ match rev (foldl (Path.push_segment (negb (startsWith "/" dir))) []
                    (split_chars "/" dir)) with
        | [] => ""
        | kept => join_with "/" kept +:+ "/"
        end
    +:+ name.
Proof.
  intros Hdir Hname. pose proof (simple_name_spec _ Hname) as (Hns & Hne & _).
  unfold Path.normalize.
  assert (String.eqb (dir +:+ String "/" name) "" = false) as ->
    by (apply String.eqb_neq; by destruct dir).
  assert (startsWith "/" (dir +:+ String "/" name) = startsWith "/" dir) as ->.
  { destruct dir as [|c dir]; [done|]. by rewrite append_cons, !startsWith_char. }
  rewrite (last_char_append dir (String "/" name)) by done.
  replace (Path.last_char (String "/" name)) with (Path.last_char name)
    by (by destruct name).
  assert (match Path.last_char name with
          | Some c => Ascii.eqb c "/"
          | None => false
          end = false) as ->.
  { pose proof (last_char_no_slash _ Hns) as Hl.
    destruct (Path.last_char name) as [c|]; [|done].
    apply Ascii.eqb_neq. congruence. }
  unfold Path.normalizeString.
  rewrite split_chars_app, foldl_app, (split_chars_no_slash name Hns).
  cbn [foldl]. rewrite push_segment_simple by done.
  cbn [rev]. rewrite join_with_snoc.
  set (kept := rev _).
  assert (∀ a, String.eqb (a +:+ name) "" = false) as Hnonempty.
  { intros a. apply String.eqb_neq. by destruct a. }
  destruct kept as [|s l].
  - rewrite (proj2 (String.eqb_neq _ _) Hne). by destruct (startsWith "/" dir).
  - rewrite (append_assoc _ "/" name), Hnonempty, <- !append_assoc.
    by destruct (startsWith "/" dir).
Qed.

(** The directory part that [path.join] puts in front of a plain file
    name: the normalized [dir], with its closing separator. *)
Lemma join_simple_name (dir : string) :
  ∃ d, (d = "" ∨ Path.last_char d = Some "/"%char)
       ∧ ∀ name, simple_name name = true → Path.join dir name = d +:+ name.
Proof.
  destruct dir as [|c dir].
  - exists "". split; [by left|]. intros name Hname.
    pose proof (simple_name_spec _ Hname) as (Hns & Hne & _).
    unfold Path.join. rewrite filter_cons_False by (cbn; lia).
    rewrite filter_cons_True by (destruct name; cbn; done || lia).
    rewrite filter_nil. cbn [join_with]. unfold Path.normalize.
    rewrite (proj2 (String.eqb_neq _ _) Hne).
    assert (startsWith "/" name = false) as ->.
    { destruct name as [|d r]; [done|]. rewrite startsWith_char.
      unfold no_slash in Hns. cbn [every_char] in Hns.
      apply andb_prop in Hns as [Hd _]. by apply negb_true_iff in Hd. }
    assert (match Path.last_char name with
            | Some c => Ascii.eqb c "/"
            | None => false
            end = false) as ->.
    { pose proof (last_char_no_slash _ Hns) as Hl.
      destruct (Path.last_char name) as [d|]; [|done].
      apply Ascii.eqb_neq. congruence. }
    unfold Path.normalizeString. rewrite (split_chars_no_slash name Hns).
    cbn [foldl]. rewrite push_segment_simple by done. cbn [rev app join_with].
    by rewrite (proj2 (String.eqb_neq _ _) Hne).
  - eexists. split; [|intros name Hname].
    2: { pose proof (simple_name_spec _ Hname) as (Hns & Hne & _).
         unfold Path.join. rewrite filter_cons_True by (cbn; lia).
         rewrite filter_cons_True by (destruct name; cbn; done || lia).
         rewrite filter_nil. cbn [join_with].
         change ("/" +:+ name) with (String "/" name).
         rewrite (normalize_simple (String c dir) name) by done.
         rewrite append_assoc. reflexivity. }
    destruct (startsWith "/" (String c dir)); destruct (rev _) as [|s l].
    + by right.
    + right. rewrite append_assoc. rewrite last_char_append by done. done.
    + by left.
    + right. rewrite append_assoc. rewrite last_char_append by done. done.
Qed.

(** ** The file name of generateOutputPath *)

Lemma length_map_chars (f : ascii → ascii) (s : string) :
  String.length (map_chars f s) = String.length s.
Proof. induction s as [|c s IH]; [done|]. cbn. by rewrite IH. Qed.

Lemma length_substring_le (n m : nat) (s : string) :
  String.length (String.substring n m s) ≤ String.length s.
Proof.
  revert n m. induction s as [|c s IH]; intros [|n] [|m]; simpl; try lia.
  - specialize (IH 0 m). lia.
  - specialize (IH n 0). lia.
  - specialize (IH n (S m)). lia.
Qed.

Lemma is_digit_no_slash (c : ascii) : is_digit c = true → negb (Ascii.eqb c "/") = true.
Proof. intros H. destruct (Ascii.eqb_spec c "/") as [->|]; [|done]. by vm_compute in H. Qed.

Lemma is_alnum_dash_no_slash (c : ascii) :
  is_alnum_dash c = true → negb (Ascii.eqb c "/") = true.
Proof. intros H. destruct (Ascii.eqb_spec c "/") as [->|]; [|done]. by vm_compute in H. Qed.

Lemma replace_non_alnum_safe (s : string) :
  every_char is_alnum_dash (replace_non_alnum s) = true.
Proof.
  apply every_char_map_chars. intros c. destruct (is_alnum c) eqn:E; [|done].
  unfold is_alnum_dash. by rewrite E.
Qed.

Lemma replace_non_alnum_dash_safe (s : string) :
  every_char is_alnum_dash (replace_non_alnum_dash s) = true.
Proof.
  apply every_char_map_chars. intros c. by destruct (is_alnum_dash c) eqn:E.
Qed.

Lemma host_part_no_slash (host : string) :
  no_slash host = true → no_slash (replace_dots (strip_www host)) = true.
Proof.
  intros H. unfold no_slash, replace_dots. apply every_char_map_chars_keep.
  - intros c Hc. by destruct (Ascii.eqb c ".").
  - unfold strip_www. destruct (startsWith "www." host); [|done].
    by apply every_char_substring.
Qed.

Lemma simple_name_intro (name : string) :
  no_slash name = true → 3 ≤ String.length name → simple_name name = true.
Proof.
  intros H Hlen. unfold simple_name. rewrite H.
  destruct name as [|a [|b [|c r]]]; cbn in Hlen; try lia.
  assert (∀ s t : string, s ≠ t → negb (String.eqb s t) = true) as Hne
    by (intros s t ?; by apply negb_true_iff, String.eqb_neq).
  by rewrite !Hne.
Qed.

(** The stem between the index prefix and the extension: the slug of the
    raw string, or the host part with the path slug. It holds no separator
    when the host name holds none, and its length is bounded. *)
Lemma generateOutputPath_name (url : string) (index : nat) (dir : string) :
  ∃ stem,
    generateOutputPath parseURL url index dir
    = Normal (Path.join dir (index_prefix index +:+ "-" +:+ stem +:+ ".mp4"))
    ∧ match parseURL url with
      | Some u =>
          String.length stem ≤ String.length (hostname u) + 61
          ∧ (no_slash (hostname u) = true → no_slash stem = true)
      | None =>
          String.length stem ≤ 50 ∧ every_char is_alnum_dash stem = true
      end.
Proof.
  unfold generateOutputPath, try_catch, new_URL. fold (index_prefix index).
  destruct (parseURL url) as [u|].
  - set (slug := String.substring 0 60 _).
    assert (String.length slug ≤ 60) as Hslug
      by (unfold slug; rewrite length_substring_0; lia).
    assert (no_slash slug = true) as Hns.
    { apply (every_char_impl is_alnum_dash); [apply is_alnum_dash_no_slash|].
      apply every_char_substring, replace_non_alnum_dash_safe. }
    assert (String.length (replace_dots (strip_www (hostname u)))
            ≤ String.length (hostname u)) as Hhost.
    { unfold replace_dots. rewrite length_map_chars. unfold strip_www.
      destruct (startsWith "www." (hostname u)); [apply length_substring_le | done]. }
    destruct (negb (String.eqb slug "")).
    + exists (replace_dots (strip_www (hostname u)) +:+ "-" +:+ slug).
      split; [cbn [app join_with]; by rewrite <- !append_assoc|]. split.
      * rewrite !length_append. cbn [String.length]. lia.
      * intros Hh. unfold no_slash in *. rewrite !every_char_append.
        fold (no_slash (replace_dots (strip_www (hostname u)))).
        by rewrite host_part_no_slash, Hns.
    + exists (replace_dots (strip_www (hostname u))).
      split; [cbn [app join_with]; by rewrite <- !append_assoc|]. split; [lia|].
      apply host_part_no_slash.
  - eexists. split; [reflexivity|]. split.
    + rewrite length_substring_0. lia.
    + apply every_char_substring, replace_non_alnum_safe.
Qed.

Lemma generateOutputPath_simple_name (index : nat) (stem : string) :
  no_slash stem = true →
  simple_name (index_prefix index +:+ "-" +:+ stem +:+ ".mp4") = true.
Proof.
  intros H. apply simple_name_intro.
  - unfold no_slash in *. rewrite !every_char_append, H.
    rewrite (every_char_impl is_digit _ _ is_digit_no_slash
               (every_char_digit_index_prefix index)). done.
  - rewrite length_append. unfold index_prefix. rewrite length_padStart. lia.
Qed.

Lemma generateOutputPath_stem (url : string) (index : nat) (dir : string) :
  (∀ url u, parseURL url = Some u → no_slash (hostname u) = true) →
  ∃ stem,
    no_slash stem = true
    ∧ generateOutputPath parseURL url index dir
      = Normal (Path.join dir (index_prefix index +:+ "-" +:+ stem +:+ ".mp4")).
Proof.
  intros Hparse. destruct (generateOutputPath_name url index dir) as (stem & -> & Hstem).
  exists stem. split; [|done]. destruct (parseURL url) as [u|] eqn:E.
  - apply Hstem, (Hparse url u E).
  - apply (every_char_impl is_alnum_dash); [apply is_alnum_dash_no_slash|].
    apply Hstem.
Qed.

(** X2. The returned path is the normalized output directory followed by
    the file name, and nothing of the URL adds a path segment: the part in
    front of the file name depends on the directory alone, and the file name
    is the index prefix, a dash, a stem without separator and [.mp4]. The
    host name that the parser returns must hold no separator. *)
Theorem generateOutputPath_in_dir (dir : string) :
  (∀ url u, parseURL url = Some u → no_slash (hostname u) = true) →
  ∃ d,
    (d = "" ∨ Path.last_char d = Some "/"%char)
    ∧ ∀ url index,
        ∃ stem,
          no_slash stem = true
          ∧ generateOutputPath parseURL url index dir
            = Normal (d +:+ index_prefix index +:+ "-" +:+ stem +:+ ".mp4").
Proof.
  intros Hparse. destruct (join_simple_name dir) as (d & Hd & Hjoin).
  exists d. split; [done|]. intros url index.
  destruct (generateOutputPath_stem url index dir Hparse) as (stem & Hns & ->).
  exists stem. split; [done|].
  by rewrite Hjoin by (by apply generateOutputPath_simple_name).
Qed.

(** X3. Two jobs of a batch never get the same path: for different
    indices below [2 ^ 53 - 1], where [index + 1] is exact, the paths
    differ, whatever the two URLs are. *)
Theorem generateOutputPath_distinct (url1 url2 : string) (i j : nat) (dir : string) :
  (∀ url u, parseURL url = Some u → no_slash (hostname u) = true) →
  exact_index i → exact_index j →
  i ≠ j →
  generateOutputPath parseURL url1 i dir ≠ generateOutputPath parseURL url2 j dir.
Proof.
  intros Hparse _ _ Hij. destruct (join_simple_name dir) as (d & _ & Hjoin).
  destruct (generateOutputPath_stem url1 i dir Hparse) as (s1 & Hs1 & ->).
  destruct (generateOutputPath_stem url2 j dir Hparse) as (s2 & Hs2 & ->).
  rewrite !Hjoin by (by apply generateOutputPath_simple_name).
  intros [= H]. apply append_inj in H.
  change ("-" +:+ ?s) with (String "-" s) in H.
  apply digits_dash_inj in H; [|apply every_char_digit_index_prefix..].
  apply Hij. unfold index_prefix in H. apply padStart_decimal_inj in H. lia.
Qed.

(** X4. The file name is bounded in length: the index prefix, and at most
    55 more characters for a URL that does not parse, or at most the length
    of the host name and 66 more for one that does. *)
Theorem generateOutputPath_name_length (url : string) (index : nat) (dir : string) :
  ∃ name,
    generateOutputPath parseURL url index dir = Normal (Path.join dir name)
    ∧ String.length name
      ≤ String.length (index_prefix index)
        + match parseURL url with
          | Some u => String.length (hostname u) + 66
          | None => 55
          end.
Proof.
  destruct (generateOutputPath_name url index dir) as (stem & -> & Hstem).
  eexists. split; [reflexivity|]. rewrite !length_append. cbn [String.length].
  destruct (parseURL url); destruct Hstem as [Hlen _]; lia.
Qed.

(** X5. A URL whose path is empty or the root gives a file name made of the
    index prefix and the host part alone, without a path part and without a
    closing dash. *)
Theorem generateOutputPath_root (url : string) (u : URL) (index : nat) (dir : string) :
  parseURL url = Some u →
  pathname u = "/" ∨ pathname u = "" →
  generateOutputPath parseURL url index dir
  = Normal (Path.join dir (index_prefix index +:+ "-"
                           +:+ replace_dots (strip_www (hostname u)) +:+ ".mp4")).
Proof.
  intros Hu Hp. unfold generateOutputPath, try_catch, new_URL. rewrite Hu.
  fold (index_prefix index). destruct Hp as [-> | ->]; simpl;
    by rewrite <- !append_assoc.
Qed.

(** ** readUrlFile, the whole run *)

Lemma readUrlFile_run (filePath : string) (w : world) :
  readUrlFile filePath w
  = match fs w !! filePath with
    | None =>
        (Throw (Error ("URL file not found: " +:+ filePath)),
         World (fs w) (console w ++ ["Reading URL file: " +:+ filePath]))
    | Some Directory =>
        (Throw (Error "EISDIR: illegal operation on a directory, read"),
         World (fs w) (console w ++ ["Reading URL file: " +:+ filePath]))
    | Some (File content) =>
        match url_lines content with
        | [] =>
            (Throw (Error ("No URLs found in file: " +:+ filePath)),
             World (fs w) (console w ++ ["Reading URL file: " +:+ filePath]))
        | found =>
            (Normal found,
             World (fs w)
               (console w
                ++ ["Reading URL file: " +:+ filePath;
                    "Found " +:+ decimal (length found) +:+ " URL(s) in file"]))
        end
    end.
Proof.
  unfold readUrlFile. do 2 run_step. cbn [fs].
  destruct (fs w !! filePath) as [[content|]|] eqn:E.
  - rewrite bool_decide_eq_true_2 by eauto. cbn [negb]. run_step.
    rewrite bind_run. unfold readFile at 1. cbn [fs]. rewrite E.
    rewrite readUrlFile_filter. destruct (url_lines content) as [|u us]; [done|].
    case_decide; [done|]. do 2 run_step. unfold mret, M_ret. cbn [fs console].
    by rewrite <- app_assoc.
  - rewrite bool_decide_eq_true_2 by eauto. cbn [negb]. run_step.
    rewrite bind_run. unfold readFile at 1. cbn [fs]. by rewrite E.
  - rewrite bool_decide_eq_false_2 by (by intros [? ?]). cbn [negb]. by run_step.
Qed.

Lemma trimEnd_idem (s : string) : trimEnd (trimEnd s) = trimEnd s.
Proof.
  induction s as [|c s IH]; [done|]. cbn [trimEnd].
  destruct (trimEnd s) as [|d t] eqn:E.
  - destruct (is_space c) eqn:Hc; [done|]. cbn [trimEnd]. by rewrite Hc.
  - change (trimEnd (String c (String d t)))
      with (match trimEnd (String d t) with
            | EmptyString => if is_space c then EmptyString else String c EmptyString
            | r' => String c r'
            end).
    by rewrite IH.
Qed.

Lemma trim_idem (s : string) : trim (trim s) = trim s.
Proof.
  unfold trim. destruct (trimStart s) as [|c r] eqn:E; [done|].
  pose proof (trimStart_head _ _ _ E) as Hc.
  destruct (trimEnd_head c r Hc) as [r' Hr]. rewrite Hr.
  cbn [trimStart]. rewrite Hc, <- Hr. apply trimEnd_idem.
Qed.

Lemma every_char_trimStart (p : ascii → bool) (s : string) :
  every_char p s = true → every_char p (trimStart s) = true.
Proof.
  induction s as [|c s IH]; [done|]. intros H. cbn [trimStart].
  destruct (is_space c); [|done]. cbn [every_char] in H.
  apply andb_prop in H as [_ H]. by apply IH.
Qed.

Lemma every_char_trimEnd (p : ascii → bool) (s : string) :
  every_char p s = true → every_char p (trimEnd s) = true.
Proof.
  induction s as [|c s IH]; [done|]. cbn [every_char]. intros [Hc Hs]%andb_prop.
  cbn [trimEnd]. specialize (IH Hs). destruct (trimEnd s) as [|d t].
  - destruct (is_space c); [done|]. cbn [every_char]. by rewrite Hc.
  - cbn [every_char] in *. by rewrite Hc.
Qed.

Lemma split_chars_pieces (sep : ascii) (s : string) :
  Forall (λ piece, every_char (λ c, negb (Ascii.eqb c sep)) piece = true)
    (split_chars sep s).
Proof.
  induction s as [|c s IH]; [by repeat constructor|]. cbn [split_chars].
  destruct (Ascii.eqb c sep) eqn:E; [by constructor|].
  destruct (split_chars sep s) as [|h t]; [by repeat constructor; cbn; rewrite E|].
  apply Forall_cons in IH as [Hh Ht]. constructor; [|done].
  cbn [every_char]. by rewrite E, Hh.
Qed.

(** X6. What [readUrlFile] returns is never empty, and every entry is a
    line of the file as [trim] leaves it: not empty, without white space at
    either end, not a comment, and without line feed. The file system is
    left alone and two lines are logged, the second with the number of
    URLs. *)
Theorem readUrlFile_urls (filePath : string) (w : world) (found : list string)
    (w' : world) :
  readUrlFile filePath w = (Normal found, w') →
  found ≠ []
  ∧ Forall (λ url,
              url ≠ "" ∧ trim url = url ∧ startsWith "#" url = false
              ∧ every_char (λ c, negb (Ascii.eqb c (ascii_of_nat 10))) url = true)
      found
  ∧ fs w' = fs w
  ∧ console w'
    = console w
      ++ ["Reading URL file: " +:+ filePath;
          "Found " +:+ decimal (length found) +:+ " URL(s) in file"].
Proof.
  rewrite readUrlFile_run. destruct (fs w !! filePath) as [[content|]|]; [|done..].
  destruct (url_lines content) as [|u us] eqn:E; [done|]. intros [= <- <-].
  split; [done|]. split; [|done]. rewrite <- E. unfold url_lines.
  apply Forall_fmap, Forall_forall. intros line [Hkept Hin]%list_elem_of_filter.
  apply kept_line_iff in Hkept as [Hlen Hhash]. cbn.
  split; [intros Heq; rewrite Heq in Hlen; cbn in Hlen; lia|].
  split; [apply trim_idem|]. split; [done|]. unfold trim.
  apply every_char_trimEnd, every_char_trimStart.
  by apply (proj1 (Forall_forall _ _) (split_chars_pieces _ content)).
Qed.

(** ** Windows line ends *)

Lemma trimEnd_cr (s : string) : trimEnd (s +:+ String (ascii_of_nat 13) "") = trimEnd s.
Proof.
  induction s as [|c s IH]; [done|]. rewrite append_cons. cbn [trimEnd]. by rewrite IH.
Qed.

Lemma trimStart_cr (s : string) :
  trimStart (s +:+ String (ascii_of_nat 13) "")
  = match trimStart s with
    | EmptyString => EmptyString
    | t => t +:+ String (ascii_of_nat 13) ""
    end.
Proof.
  induction s as [|c s IH]; [done|]. rewrite append_cons. cbn [trimStart].
  destruct (is_space c); [done|]. by rewrite append_cons.
Qed.

Lemma trim_cr (s : string) : trim (s +:+ String (ascii_of_nat 13) "") = trim s.
Proof.
  unfold trim. rewrite trimStart_cr. destruct (trimStart s); [done|]. apply trimEnd_cr.
Qed.

Lemma ignored_line_trim (a b : string) : trim a = trim b → ignored_line a = ignored_line b.
Proof.
  intros H. destruct (ignored_line a) eqn:Ha, (ignored_line b) eqn:Hb; try done.
  - apply kept_line_iff in Hb. rewrite <- H in Hb. apply kept_line_iff in Hb. congruence.
  - apply kept_line_iff in Ha. rewrite H in Ha. apply kept_line_iff in Ha. congruence.
Qed.

Lemma split_chars_crlf (s : string) :
  Forall2 (λ a b, a = b ∨ a = b +:+ String (ascii_of_nat 13) "")
    (split_chars (ascii_of_nat 10) (crlf s)) (split_chars (ascii_of_nat 10) s).
Proof.
  induction s as [|c s IH]; [repeat constructor; by left|]. cbn [crlf].
  destruct (Ascii.eqb c (ascii_of_nat 10)) eqn:E.
  - cbn [split_chars]. rewrite E.
    change (Ascii.eqb (ascii_of_nat 13) (ascii_of_nat 10)) with false. cbn [split_chars].
    constructor; [by right|done].
  - cbn [split_chars]. rewrite E.
    destruct (split_chars_cons (ascii_of_nat 10) (crlf s)) as (h1 & t1 & E1).
    destruct (split_chars_cons (ascii_of_nat 10) s) as (h2 & t2 & E2).
    rewrite E1, E2 in *. apply Forall2_cons in IH as [[-> | ->] Ht].
    + constructor; [by left|done].
    + constructor; [by right|done].
Qed.

Lemma url_lines_crlf (content : string) : url_lines (crlf content) = url_lines content.
Proof.
  unfold url_lines. pose proof (split_chars_crlf content) as H.
  induction H as [|a b la lb Hab _ IH]; [done|].
  assert (trim a = trim b) as Htrim by (destruct Hab as [-> | ->]; [done | apply trim_cr]).
  rewrite !filter_cons, (ignored_line_trim a b Htrim).
  case_decide; [|done]. by rewrite !fmap_cons, IH, Htrim.
Qed.

(** X7. A file with Windows line ends reads as the same file with plain
    line feeds: the same URLs, or the same error. *)
Theorem readUrlFile_crlf (filePath content : string) (w w' : world) :
  fs w !! filePath = Some (File content) →
  fs w' !! filePath = Some (File (crlf content)) →
  (readUrlFile filePath w').1 = (readUrlFile filePath w).1.
Proof.
  intros H H'. rewrite !readUrlFile_run, H, H', url_lines_crlf.
  by destruct (url_lines content).
Qed.

(** ** readUrlFile, files put together *)

Lemma url_lines_app (a b : string) :
  url_lines (a +:+ String (ascii_of_nat 10) b) = url_lines a ++ url_lines b.
Proof. unfold url_lines. by rewrite split_chars_app, filter_app, fmap_app. Qed.

(** X19. Two URL files put together, one after the other with a line feed
    between them, read as the first file's URLs followed by the second
    file's: the order of the lines is kept and no URL is merged or lost. *)
Theorem readUrlFile_concat (first second both : string) (a b : string) (w : world)
    (found1 found2 : list string) (w1 w2 : world) :
  fs w !! first = Some (File a) →
  fs w !! second = Some (File b) →
  fs w !! both = Some (File (a +:+ String (ascii_of_nat 10) b)) →
  readUrlFile first w = (Normal found1, w1) →
  readUrlFile second w = (Normal found2, w2) →
  (readUrlFile both w).1 = Normal (found1 ++ found2).
Proof.
  intros Ha Hb Hab. rewrite !readUrlFile_run, Ha, Hb, Hab, url_lines_app.
  destruct (url_lines a) as [|u1 l1]; [done|]. intros [= <- _].
  destruct (url_lines b) as [|u2 l2]; [done|]. by intros [= <- _].
Qed.

(** ** printBatchSummary, empty slots and odd results *)

Lemma Forall_is_Some_fmap (objs : list object) :
  Forall (λ slot : option object, is_Some slot) (Some <$> objs).
Proof. apply Forall_fmap, Forall_forall. intros r _. cbn. eauto. Qed.

(** X8. For an array without empty slots whose elements hold values of
    the model (undefined, null, booleans, integers, strings, [Error]
    objects), [printBatchSummary] returns and reports every element once, in
    order: the element is tagged OK and counted as a success when its
    [success] is truthy, tagged FAIL and counted as a failure otherwise,
    also when it has no [success] at all, and the two counts add up to the
    length. *)
Theorem printBatchSummary_any_results (objs : list object) (w : world) :
  ∃ rows,
    printBatchSummary (Some <$> objs) w
    = (Normal (),
       World (fs w)
         (console w
          ++ [repeat_char "=" 70; "Batch Recording Summary"; repeat_char "=" 70]
          ++ concat rows
          ++ [repeat_char "-" 70;
              "Total: " +:+ decimal (length objs)
              +:+ " | Success: " +:+ decimal (successes (Some <$> objs))
              +:+ " | Failed: " +:+ decimal (failures (Some <$> objs));
              repeat_char "=" 70]))
    ∧ Forall2 (λ r pair,
                 tagged (if truthy (get r "success") then "OK" else "FAIL") pair
                 ∧ (r !! "success" = None → tagged "FAIL" pair))
        objs rows
    ∧ successes (Some <$> objs) + failures (Some <$> objs) = length objs
    ∧ successes (Some <$> objs)
      = length (filter (λ r, truthy (get r "success") = true) objs).
Proof.
  destruct (report_rows (Some <$> objs) (Forall_is_Some_fmap objs))
    as (rows & Hrows & Htags).
  exists rows. rewrite printBatchSummary_filled, Hrows by apply Forall_is_Some_fmap.
  rewrite length_fmap. split; [done|]. split; [|split].
  - apply (proj1 (Forall2_fmap_l _ _ _ _)) in Htags.
    eapply Forall2_impl; [exact Htags|].
    intros r pair Hpair. unfold compose, tag in Hpair. cbn [succeeded] in Hpair.
    split; [done|]. intros Hr. unfold get in Hpair. by rewrite Hr in Hpair.
  - by rewrite successes_failures, length_fmap.
  - unfold successes. clear. induction objs as [|r objs IH]; [done|].
    rewrite fmap_cons, !filter_cons. cbn [succeeded].
    repeat case_decide; try done; cbn [length]; by rewrite IH.
Qed.

Lemma printBatchSummary_loop_slot (objs : list object) (rest : array) (s f : nat)
    (w : world) :
  printBatchSummary_loop ((Some <$> objs) ++ None :: rest) s f w
  = (Throw (VError "TypeError" "Cannot read properties of undefined (reading 'success')"),
     World (fs w) (console w ++ ((Some <$> objs) ≫= summary_rows))).
Proof.
  revert s f w. induction objs as [|r objs IH]; intros s f w.
  - cbn. rewrite app_nil_r. by destruct w.
  - rewrite fmap_cons. cbn [app printBatchSummary_loop summary_rows mbind list_bind].
    do 2 run_step.
    destruct (truthy (get r "success")); rewrite IH; cbn [fs console];
      by rewrite <- !app_assoc.
Qed.

(** X9. An empty slot aborts the report: [printBatchSummary] throws a
    TypeError when it reaches the first empty slot, after the heading and
    one tagged pair of rows for each element before it, and prints no
    totals. *)
Theorem printBatchSummary_empty_slot (objs : list object) (rest : array) (w : world) :
  ∃ rows,
    printBatchSummary ((Some <$> objs) ++ None :: rest) w
    = (Throw (VError "TypeError" "Cannot read properties of undefined (reading 'success')"),
       World (fs w)
         (console w
          ++ [repeat_char "=" 70; "Batch Recording Summary"; repeat_char "=" 70]
          ++ concat rows))
    ∧ Forall2 (λ r pair, tagged (if truthy (get r "success") then "OK" else "FAIL") pair)
        objs rows.
Proof.
  destruct (report_rows (Some <$> objs) (Forall_is_Some_fmap objs))
    as (rows & Hrows & Htags).
  exists rows. split.
  - unfold printBatchSummary. do 3 run_step. rewrite bind_run.
    rewrite printBatchSummary_loop_slot, Hrows. cbn [fs console].
    by rewrite <- !app_assoc.
  - apply (proj1 (Forall2_fmap_l _ _ _ _)) in Htags.
    eapply Forall2_impl; [exact Htags|].
    intros r pair Hpair. exact Hpair.
Qed.

(** ** The order of the calls of recordFn *)

Lemma calls_in_order_ext (st st' : pool) :
  calls st' = calls st → nextIndex st' = nextIndex st →
  calls_in_order st → calls_in_order st'.
Proof. unfold calls_in_order. by intros -> ->. Qed.

Lemma calls_in_order_run (w : nat) (st : pool) :
  calls_in_order st → calls_in_order (worker_run w st).1.
Proof.
  intros [Hlen Hcalls].
  destruct (worker_run_spec w st) as [(Hlt & url & lines & Hu & ->) | (Hge & ->)];
    [|done].
  split; cbn [fst calls nextIndex].
  - rewrite length_app. cbn [length]. lia.
  - intros k w' context [Hk | [Hk Hnew]]%lookup_app_Some; [by apply Hcalls|].
    apply list_lookup_singleton_Some in Hnew as [Hk0 [= <- <-]].
    replace k with (nextIndex st) by lia. eauto.
Qed.

Lemma calls_in_order_spawn (st : pool) (i : nat) :
  calls_in_order st → calls_in_order (spawn st i).
Proof.
  intros H. apply (calls_in_order_run i) in H. unfold spawn.
  destruct (worker_run i st) as [st' ws]. by apply (calls_in_order_ext st').
Qed.

Lemma calls_in_order_resume (w : nat) (st : pool) :
  calls_in_order st → calls_in_order (worker_resume w st).
Proof.
  intros H. unfold worker_resume.
  destruct (workers st !! w) as [[url index outputPath jobLabel [result|e]| |]|];
    [|by apply (calls_in_order_ext st)|done..].
  set (st1 := Pool _ _ _ _ _ _).
  assert (calls_in_order st1) as H1 by (by apply (calls_in_order_ext st)).
  apply (calls_in_order_run w) in H1.
  destruct (worker_run w st1) as [st' ws]. by apply (calls_in_order_ext st').
Qed.

Lemma calls_in_order_settle (schedule : list nat) (st : pool) :
  calls_in_order st → calls_in_order (settle schedule st).2.
Proof.
  revert st. induction schedule as [|k schedule IH]; intros st H;
    rewrite settle_unfold;
    destruct (first_rejection (workers st)); try done;
    destruct (awaiting (workers st)); try done.
  by apply IH, calls_in_order_resume.
Qed.

Lemma calls_in_order_run_pool (concurrency : option Z) (schedule : list nat)
    (out : list string) :
  calls_in_order (run_pool concurrency schedule out).2.
Proof.
  unfold run_pool, launch. apply calls_in_order_settle.
  generalize (seq 0 (Z.to_nat (default 2%Z concurrency `min` Z.of_nat (length urls)))).
  intros ids.
  assert (calls_in_order (Pool 0 (replicate (length urls) None) [] out [] [])) as H0
    by (split; [done | by intros k w c [=]]).
  revert H0. generalize (Pool 0 (replicate (length urls) None) [] out [] []).
  induction ids as [|i ids IH]; intros st H; [done|].
  cbn [foldl]. by apply IH, calls_in_order_spawn.
Qed.

Lemma length_inflight (ws : list worker_state) : length (inflight ws) ≤ length ws.
Proof.
  induction ws as [|s ws IH]; [done|]. unfold inflight in *. cbn [omap list_omap].
  destruct (job_of s); cbn [length]; lia.
Qed.

(** X10. [recordFn] is called for the jobs in input order, whatever the
    schedule: call number [k] is for the job at index [k], with the context
    of the calling worker, so no job is started twice and none is skipped
    on the way. While no worker is rejected, the calls not yet stored are at
    most as many as the workers launched; and a normal return at a
    concurrency of at least 1 has seen exactly one call per job. *)
Theorem recordFn_calls_in_order (concurrency : option Z) (schedule : list nat)
    (out : list string) :
  length (calls (run_pool concurrency schedule out).2)
  = nextIndex (run_pool concurrency schedule out).2
  ∧ nextIndex (run_pool concurrency schedule out).2 ≤ length urls
  ∧ (∀ k w context,
       calls (run_pool concurrency schedule out).2 !! k = Some (w, context) →
       ∃ url, urls !! k = Some url ∧ context = parallel_job_context w url k)
  ∧ (first_rejection (workers (run_pool concurrency schedule out).2) = None →
     length (calls (run_pool concurrency schedule out).2)
     ≤ length (writes (run_pool concurrency schedule out).2)
       + Z.to_nat (default 2%Z concurrency `min` Z.of_nat (length urls)))
  ∧ (∀ rs, (1 ≤ default 2 concurrency)%Z →
           (run_pool concurrency schedule out).1 = Some (Normal rs) →
           length (calls (run_pool concurrency schedule out).2) = length urls).
Proof.
  destruct (calls_in_order_run_pool concurrency schedule out) as [Hlen Hcalls].
  destruct (run_pool_inv concurrency schedule out) as (Hinv & Hworkers & _).
  split; [done|]. split; [apply (inv_next _ Hinv)|]. split; [done|]. split.
  - intros Hrej. pose proof (inv_claimed _ Hinv Hrej) as Hperm.
    apply Permutation_length in Hperm.
    rewrite length_app, length_fmap, length_seq in Hperm.
    pose proof (length_inflight (workers (run_pool concurrency schedule out).2)).
    fold (worker_count concurrency). lia.
  - intros rs HC Hr. rewrite Hlen.
    destruct (decide (length urls = 0)) as [H0|H0].
    + pose proof (inv_next _ Hinv). lia.
    + eapply run_pool_Normal; [apply worker_count_pos; [done | lia] | exact Hr].
Qed.

(** ** What the runners return *)

Lemma runSequential_loop_Normal (rest : list string) (i : nat) (results : array)
    (w : world) (rs : array) (w' : world) :
  runSequential_loop i rest results w = (Normal rs, w') →
  ∃ rs0,
    rs = results ++ rs0
    ∧ length rs0 = length rest
    ∧ ∀ k url, rest !! k = Some url →
        ∃ result,
          recordFn (sequential_job_context url (i + k)) = Normal result
          ∧ rs0 !! k = Some (Some (job_result url (outputPath_of url (i + k)) result)).
Proof.
  revert i results w. induction rest as [|url rest IH]; intros i results w H.
  - injection H as <- <-. exists []. rewrite app_nil_r. split; [done|]. split; [done|].
    intros k url [=].
  - destruct (runSequential_loop_cons i url rest results w) as (w1 & _ & Heq).
    rewrite Heq in H.
    destruct (recordFn (sequential_job_context url i)) as [result|e] eqn:Hr; [|done].
    apply IH in H as (rs0 & -> & Hlen & Hrs).
    exists (Some (job_result url (outputPath_of url i) result) :: rs0).
    unfold push. rewrite <- app_assoc. split; [done|]. split; [cbn; lia|].
    intros [|k] u Hk.
    + injection Hk as <-. rewrite Nat.add_0_r. eauto.
    + replace (i + S k) with (S i + k) by lia. by apply Hrs.
Qed.

Lemma runSequential_Normal_slots (w : world) (rs : array) (w' : world) :
  runSequential w = (Normal rs, w') →
  length rs = length urls
  ∧ ∀ i url, urls !! i = Some url →
      ∃ result,
        recordFn (sequential_job_context url i) = Normal result
        ∧ rs !! i = Some (Some (job_result url (outputPath_of url i) result)).
Proof.
  intros H.
  destruct (runSequential_loop_run w (runSequential_ensured _ _ _ H)) as [w1 Heq].
  rewrite Heq in H. apply runSequential_loop_Normal in H as (rs0 & -> & Hlen & Hrs). by split.
Qed.

Lemma runParallel_Normal_slots (concurrency : option Z) (schedule : list nat) (w : world)
    (rs : array) (w' : world) :
  (1 ≤ default 2 concurrency)%Z →
  runParallel concurrency schedule w = (Some (Normal rs), w') →
  length rs = length urls
  ∧ ∀ i url, urls !! i = Some url →
      ∃ wk result,
        recordFn (parallel_job_context wk url i) = Normal result
        ∧ rs !! i = Some (Some (job_result url (outputPath_of url i) result)).
Proof.
  intros HC Hpar.
  destruct (runParallel_run_pool concurrency schedule w
              (runParallel_ensured _ _ _ _ _ Hpar)) as [w1 Heq].
  rewrite Heq in Hpar. injection Hpar as Hr _.
  destruct (run_pool_inv concurrency schedule (console w1)) as (Hinv & _ & Hm).
  rewrite Hr in Hm. destruct Hm as (Hrs & _ & _). split.
  - rewrite Hrs. apply (inv_length _ Hinv).
  - intros i url Hi.
    assert (0 < worker_count concurrency) as HW
      by (apply worker_count_pos; [done | apply lookup_lt_Some in Hi; lia]).
    destruct (run_pool_Normal_slots _ _ _ _ _ _ HW Hr Hi) as (wk & result & _ & _ & ? & ?).
    eauto.
Qed.

Lemma job_result_lookup (url outputPath : string) (result : object) (k : string) :
  job_result url outputPath result !! k
  = match result !! k with
    | Some v => Some v
    | None =>
        if decide (k = "url") then Some (VStr url)
        else if decide (k = "outputPath") then Some (VStr outputPath) else None
    end.
Proof.
  unfold job_result, spread. rewrite lookup_union.
  destruct (result !! k) as [v|] eqn:E.
  - by destruct (<[_:=_]> _ !! k).
  - rewrite (left_id_L None _). repeat case_decide; subst.
    + apply lookup_insert_eq.
    + rewrite lookup_insert_ne by done. apply lookup_insert_eq.
    + by rewrite !lookup_insert_ne.
Qed.

Lemma job_element_intro (rs : array) (i : nat) (url : string) (result : object) :
  rs !! i = Some (Some (job_result url (outputPath_of url i) result)) →
  job_element rs i url result.
Proof.
  intros Hl. exists (outputPath_of url i), (job_result url (outputPath_of url i) result).
  split; [apply generateOutputPath_outputPath_of|]. split; [done|]. split; [done|].
  split; [|split; [|split]].
  - intros k v Hk. by rewrite job_result_lookup, Hk.
  - unfold get. rewrite job_result_lookup. by destruct (result !! "success").
  - intros Hn. by rewrite job_result_lookup, Hn.
  - intros Hn. by rewrite job_result_lookup, Hn.
Qed.

(** X11. Each element of a returned array is the result of the recording
    of the job at its index: what [recordFn] resolved to when called with
    the context of that job (in [runParallel], the context of that job in
    one of the workers launched), with the job's URL and the path derived
    from the job's own index added. Every property of the result is kept as
    it is, so the [success] reported is the recorder's. This holds for
    [runSequential] and, at a concurrency of at least 1 and for every
    schedule, for [runParallel]. *)
Theorem runner_result_fields (concurrency : option Z) (schedule : list nat) (w : world)
    (rs : array) (w' : world) (i : nat) (url : string) :
  urls !! i = Some url →
  (runSequential w = (Normal rs, w') →
   ∃ result,
     recordFn (sequential_job_context url i) = Normal result
     ∧ job_element rs i url result)
  ∧ ((1 ≤ default 2 concurrency)%Z →
     runParallel concurrency schedule w = (Some (Normal rs), w') →
     ∃ wk result,
       wk < worker_count concurrency
       ∧ recordFn (parallel_job_context wk url i) = Normal result
       ∧ job_element rs i url result).
Proof.
  intros Hi. split.
  - intros Hseq. destruct (runSequential_Normal_slots _ _ _ Hseq) as [_ H].
    destruct (H i url Hi) as (result & Hr & Hl). exists result. split; [done|].
    by apply job_element_intro.
  - intros HC Hpar.
    destruct (runParallel_run_pool concurrency schedule w
                (runParallel_ensured _ _ _ _ _ Hpar)) as [w1 Heq].
    rewrite Heq in Hpar. injection Hpar as Hr _.
    assert (0 < worker_count concurrency) as HW
      by (apply worker_count_pos; [done | apply lookup_lt_Some in Hi; lia]).
    destruct (run_pool_Normal_slots _ _ _ _ _ _ HW Hr Hi)
      as (wk & result & _ & Hwk & Hp & Hl).
    exists wk, result. split; [done|]. split; [done|]. by apply job_element_intro.
Qed.

(** ** The two runners side by side *)

Lemma contexts_agree (wk : nat) (url : string) (i : nat) :
  parallel_job_context wk url i !! "url" = sequential_job_context url i !! "url"
  ∧ parallel_job_context wk url i !! "outputPath"
    = sequential_job_context url i !! "outputPath"
  ∧ parallel_job_context wk url i !! "jobIndex"
    = sequential_job_context url i !! "jobIndex".
Proof.
  unfold parallel_job_context, sequential_job_context, parallel_context,
    sequential_context, spread.
  rewrite !lookup_union. split; [|split].
  - by rewrite !lookup_insert_eq.
  - rewrite !(lookup_insert_ne _ "url" "outputPath") by done.
    by rewrite !lookup_insert_eq.
  - rewrite !(lookup_insert_ne _ "url" "jobIndex") by done.
    rewrite !(lookup_insert_ne _ "outputPath" "jobIndex") by done.
    rewrite !(lookup_insert_ne _ "jobLabel" "jobIndex") by done.
    by rewrite !lookup_insert_eq.
Qed.

(** X12. When [recordFn] looks at the [url], [outputPath] and [jobIndex]
    of its context only, the array that [runParallel] returns is the array
    that [runSequential] returns: the result does not depend on the
    concurrency (at least 1), nor on the order in which the promises
    settle. *)
Theorem runParallel_as_runSequential (concurrency : option Z) (schedule : list nat)
    (w : world) (rs : array) (w' : world) :
  (1 ≤ default 2 concurrency)%Z →
  (∀ c1 c2 : object,
     c1 !! "url" = c2 !! "url" → c1 !! "outputPath" = c2 !! "outputPath" →
     c1 !! "jobIndex" = c2 !! "jobIndex" → recordFn c1 = recordFn c2) →
  runParallel concurrency schedule w = (Some (Normal rs), w') →
  (runSequential w).1 = Normal rs
  ∧ ∀ concurrency' schedule' rs' w'',
      (1 ≤ default 2 concurrency')%Z →
      runParallel concurrency' schedule' w = (Some (Normal rs'), w'') → rs' = rs.
Proof.
  intros HC Hdep Hpar.
  destruct (runParallel_Normal_slots _ _ _ _ _ HC Hpar) as [Hlen Hslots].
  assert (∀ wk url i,
            recordFn (parallel_job_context wk url i)
            = recordFn (sequential_job_context url i)) as Hsame.
  { intros wk url i. destruct (contexts_agree wk url i) as (? & ? & ?). by apply Hdep. }
  split.
  - destruct (runSequential_loop_run w (runParallel_ensured _ _ _ _ _ Hpar)) as [w1 ->].
    destruct (runSequential_loop_resolves urls 0 [] w1) as (rs1 & w2 & -> & Hlen1 & Hrs1).
    { intros k url Hk. destruct (Hslots k url Hk) as (wk & result & Hr & _).
      exists result. by rewrite <- (Hsame wk). }
    cbn [fst app]. f_equal. apply list_eq. intros i.
    destruct (urls !! i) as [url|] eqn:Hi.
    + destruct (Hslots i url Hi) as (wk & result & Hr & ->).
      destruct (Hrs1 i url Hi) as (result1 & Hr1 & ->).
      rewrite Hsame in Hr. change (0 + i) with i in *. congruence.
    + apply lookup_ge_None in Hi.
      rewrite !(proj2 (lookup_ge_None _ _)) by lia. done.
  - intros concurrency' schedule' rs' w'' HC' Hpar'.
    destruct (runParallel_Normal_slots _ _ _ _ _ HC' Hpar') as [Hlen' Hslots'].
    apply list_eq. intros i. destruct (urls !! i) as [url|] eqn:Hi.
    + destruct (Hslots i url Hi) as (wk & result & Hr & ->).
      destruct (Hslots' i url Hi) as (wk' & result' & Hr' & ->).
      rewrite Hsame in Hr, Hr'. congruence.
    + apply lookup_ge_None in Hi.
      rewrite !(proj2 (lookup_ge_None _ _)) by lia. done.
Qed.

(** X13. Every property of [sharedArgs] reaches [recordFn] as it is, in the
    context of the sequential loop and in the context of every call that a
    worker makes: the shared arguments win over the fields of the job. *)
Theorem sharedArgs_reach_recordFn (k : string) (v : value) :
  sharedArgs !! k = Some v →
  (∀ url outputPath jobLabel i,
     sequential_context url outputPath jobLabel i !! k = Some v)
  ∧ (∀ wk url outputPath jobLabel i,
       parallel_context wk url outputPath jobLabel i !! k = Some v)
  ∧ ∀ concurrency schedule out wk context,
      (wk, context) ∈ calls (run_pool concurrency schedule out).2 →
      context !! k = Some v.
Proof.
  intros H.
  assert (∀ wk url outputPath jobLabel i,
            parallel_context wk url outputPath jobLabel i !! k = Some v) as Hpar.
  { intros. unfold parallel_context, spread. apply lookup_union_Some_l. exact H. }
  split; [|split; [exact Hpar|]].
  - intros. unfold sequential_context, spread. apply lookup_union_Some_l. exact H.
  - intros concurrency schedule out wk context Hc.
    destruct (run_pool_inv concurrency schedule out) as (Hinv & _ & _).
    destruct (inv_calls _ Hinv _ _ Hc) as (_ & url & index & _ & Hctx).
    rewrite Hctx. unfold parallel_job_context. apply Hpar.
Qed.

(** X14. With an empty list both runners do what [ensureOutputDir] does
    and nothing more: they throw its exception if it throws, and return the
    empty array otherwise, [runParallel] at every concurrency and without
    waiting for anything; [recordFn] is called for nothing. *)
Theorem runners_empty_list (concurrency : option Z) (schedule : list nat) (w : world) :
  urls = [] →
  runSequential w
  = (match (ensureOutputDir mkdir outputDir w).1 with
     | Normal _ => Normal []
     | Throw e => Throw e
     end, (ensureOutputDir mkdir outputDir w).2)
  ∧ runParallel concurrency schedule w
    = (Some match (ensureOutputDir mkdir outputDir w).1 with
            | Normal _ => Normal []
            | Throw e => Throw e
            end, (ensureOutputDir mkdir outputDir w).2)
  ∧ ∀ out, calls (run_pool concurrency schedule out).2 = [].
Proof.
  intros Hurls.
  assert (∀ out, run_pool concurrency schedule out = (Some (Normal []), Pool 0 [] [] out [] []))
    as Hpool.
  { intros out. unfold run_pool, launch. rewrite Hurls. cbn [length replicate].
    replace (Z.to_nat (default 2%Z concurrency `min` Z.of_nat 0)) with 0 by lia.
    simpl (foldl _ _ _). by rewrite settle_unfold. }
  split; [|split].
  - unfold runSequential. rewrite bind_run, Hurls.
    by destruct (ensureOutputDir mkdir outputDir w) as [[[]|e] w1].
  - unfold runParallel.
    destruct (ensureOutputDir mkdir outputDir w) as [[[]|e] w1]; [|done].
    rewrite Hpool. cbn [fst snd output]. by destruct w1.
  - intros out. by rewrite Hpool.
Qed.

(** ** Runners and report together *)

Lemma slots_filled (rs : array) :
  length rs = length urls →
  (∀ i url, urls !! i = Some url → ∃ r, rs !! i = Some (Some r)) →
  Forall (λ slot, is_Some slot) rs.
Proof.
  intros Hlen H. apply Forall_lookup. intros i slot Hi.
  assert (i < length urls) as Hlt by (rewrite <- Hlen; by eapply lookup_lt_Some).
  destruct (lookup_lt_is_Some_2 urls i Hlt) as [url Hu].
  destruct (H i url Hu) as [r Hr]. rewrite Hr in Hi. injection Hi as <-. eauto.
Qed.

(** X15. The report of a finished batch is complete: for an array that
    [runSequential] returns, or that [runParallel] returns at a concurrency
    of at least 1, [printBatchSummary] returns, prints one tagged pair of
    rows per input URL, in order, and its totals line counts the URLs of the
    input, successes and failures adding up to their number. *)
Theorem batch_report_complete (concurrency : option Z) (schedule : list nat) (w : world)
    (rs : array) (w1 : world) :
  (1 ≤ default 2 concurrency)%Z →
  runSequential w = (Normal rs, w1)
  ∨ runParallel concurrency schedule w = (Some (Normal rs), w1) →
  ∃ rows,
    (∀ w2,
       printBatchSummary rs w2
       = (Normal (),
          World (fs w2)
            (console w2
             ++ [repeat_char "=" 70; "Batch Recording Summary"; repeat_char "=" 70]
             ++ concat rows
             ++ [repeat_char "-" 70;
                 "Total: " +:+ decimal (length urls)
                 +:+ " | Success: " +:+ decimal (successes rs)
                 +:+ " | Failed: " +:+ decimal (failures rs);
                 repeat_char "=" 70])))
    ∧ length rows = length urls
    ∧ Forall2 (λ slot pair, tagged (tag slot) pair) rs rows
    ∧ successes rs + failures rs = length urls.
Proof.
  intros HC Hrun.
  assert (length rs = length urls
          ∧ ∀ i url, urls !! i = Some url → ∃ r, rs !! i = Some (Some r)) as [Hlen Hslots].
  { destruct Hrun as [Hseq | Hpar].
    - destruct (runSequential_Normal_slots _ _ _ Hseq) as [? H]. split; [done|].
      intros i url Hi. destruct (H i url Hi) as (result & _ & ?). eauto.
    - destruct (runParallel_Normal_slots _ _ _ _ _ HC Hpar) as [? H]. split; [done|].
      intros i url Hi. destruct (H i url Hi) as (wk & result & _ & ?). eauto. }
  pose proof (slots_filled rs Hlen Hslots) as Hfilled.
  destruct (report_rows rs Hfilled) as (rows & Hrows & Htags).
  exists rows. split; [|split; [|split]].
  - intros w2. by rewrite printBatchSummary_filled, Hrows, Hlen.
  - apply Forall2_length in Htags. lia.
  - exact Htags.
  - by rewrite successes_failures.
Qed.

(** X16. At a concurrency of 0 or less the array that [runParallel]
    returns for a list that is not empty cannot be reported:
    [printBatchSummary] throws on its first slot, after the heading, and
    prints no row and no totals. *)
Theorem batch_report_no_workers (C : Z) (schedule : list nat) (w : world) (rs : array)
    (w1 : world) :
  (C ≤ 0)%Z → urls ≠ [] →
  runParallel (Some C) schedule w = (Some (Normal rs), w1) →
  printBatchSummary rs w1
  = (Throw (VError "TypeError" "Cannot read properties of undefined (reading 'success')"),
     World (fs w1)
       (console w1
        ++ [repeat_char "=" 70; "Batch Recording Summary"; repeat_char "=" 70])).
Proof.
  intros HC Hne Hpar.
  destruct (runParallel_run_pool (Some C) schedule w
              (runParallel_ensured _ _ _ _ _ Hpar)) as [w0 Heq].
  rewrite Heq in Hpar. injection Hpar as Hr _.
  assert (run_pool (Some C) schedule (console w0)
          = (Some (Normal (replicate (length urls) None)),
             Pool 0 (replicate (length urls) None) [] (console w0) [] [])) as Hpool.
  { unfold run_pool, launch. change (default 2%Z (Some C)) with C.
    replace (Z.to_nat (C `min` Z.of_nat (length urls))) with 0 by lia.
    simpl (foldl _ _ _). by rewrite settle_unfold. }
  rewrite Hpool in Hr. injection Hr as <-.
  destruct urls as [|u us]; [done|]. cbn [length replicate].
  unfold printBatchSummary. do 3 run_step. rewrite bind_run.
  rewrite (printBatchSummary_loop_slot [] (replicate (length us) None)).
  cbn. by rewrite app_nil_r, <- !app_assoc.
Qed.

(** ** Where the exceptions of the runners come from *)

Lemma runSequential_loop_Throw (rest : list string) (i : nat) (results : array)
    (w : world) (e : value) :
  (runSequential_loop i rest results w).1 = Throw e →
  ∃ k url,
    rest !! k = Some url
    ∧ recordFn (sequential_job_context url (i + k)) = Throw e
    ∧ ∀ j u, j < k → rest !! j = Some u →
        ∃ result, recordFn (sequential_job_context u (i + j)) = Normal result.
Proof.
  revert i results w. induction rest as [|url rest IH]; intros i results w; [done|].
  destruct (runSequential_loop_cons i url rest results w) as (w1 & _ & ->).
  destruct (recordFn (sequential_job_context url i)) as [result|e0] eqn:Hr.
  - intros (k & u & Hk & He & Hres)%IH. exists (S k), u.
    replace (i + S k) with (S i + k) by lia. split; [done|]. split; [done|].
    intros [|j] u' Hj Hl.
    + injection Hl as <-. rewrite Nat.add_0_r. eauto.
    + replace (i + S j) with (S i + j) by lia. apply (Hres j); [lia | done].
  - intros [= ->]. exists 0, url. rewrite Nat.add_0_r. split; [done|]. split; [done|].
    intros; lia.
Qed.

(** X17. Every exception that leaves a runner is the platform's or the
    recorder's. [runSequential] throws [e] exactly when [ensureOutputDir]
    throws [e], or the directory is there or made and [e] is what
    [recordFn] throws for the first job whose recording is rejected, the
    jobs before it having resolved: a later job has no say. An exception of
    [runParallel] is the one of [ensureOutputDir], or one that [recordFn]
    threw for a job of the list in the context of a worker. *)
Theorem runner_exceptions (concurrency : option Z) (schedule : list nat) (w : world)
    (e : value) :
  ((runSequential w).1 = Throw e
   ↔ (ensureOutputDir mkdir outputDir w).1 = Throw e
     ∨ ((ensureOutputDir mkdir outputDir w).1 = Normal ()
        ∧ ∃ k url,
            urls !! k = Some url
            ∧ recordFn (sequential_job_context url k) = Throw e
            ∧ ∀ j u, j < k → urls !! j = Some u →
                ∃ result, recordFn (sequential_job_context u j) = Normal result))
  ∧ ((runParallel concurrency schedule w).1 = Some (Throw e) →
     (ensureOutputDir mkdir outputDir w).1 = Throw e
     ∨ ∃ wk url index,
         urls !! index = Some url
         ∧ recordFn (parallel_job_context wk url index) = Throw e).
Proof.
  split; [split|].
  - unfold runSequential. rewrite bind_run.
    destruct (ensureOutputDir mkdir outputDir w) as [[[]|e0] w1]; [|intros [= ->]; by left].
    intros H. right. split; [done|]. by apply runSequential_loop_Throw in H.
  - intros [Hthrow | (Hens & k & url & Hk & He & Hres)].
    + unfold runSequential. rewrite bind_run.
      destruct (ensureOutputDir mkdir outputDir w) as [[[]|e0] w1]; [done|].
      by injection Hthrow as ->.
    + destruct (runSequential_loop_run w Hens) as [w1 ->].
      by apply (runSequential_loop_rejects urls 0 k url).
  - unfold runParallel.
    destruct (ensureOutputDir mkdir outputDir w) as [[[]|e0] w1]; [|intros [= ->]; by left].
    destruct (run_pool concurrency schedule (console w1)) as [r st] eqn:Hr.
    cbn [fst]. intros ->. right.
    apply (run_pool_Throw concurrency schedule (console w1)). by rewrite Hr.
Qed.

(** ** When every recording resolves *)

Lemma runSequential_returns (w : world) :
  (ensureOutputDir mkdir outputDir w).1 = Normal () →
  (∀ context, ∃ result, recordFn context = Normal result) →
  ∃ rs w', runSequential w = (Normal rs, w').
Proof.
  intros Hens H. destruct (runSequential_loop_run w Hens) as [w1 ->].
  destruct (runSequential_loop_resolves urls 0 [] w1) as (rs & w' & -> & _);
    [intros k url _; apply H|].
  by exists rs, w'.
Qed.

Lemma runParallel_returns (concurrency : option Z) (schedule : list nat) (w : world) :
  (ensureOutputDir mkdir outputDir w).1 = Normal () →
  (∀ context, ∃ result, recordFn context = Normal result) →
  length urls ≤ length schedule →
  ∃ rs w', runParallel concurrency schedule w = (Some (Normal rs), w').
Proof.
  intros Hens H Hlen.
  destruct (runParallel_run_pool concurrency schedule w Hens) as [w1 ->].
  pose proof (run_pool_terminates concurrency schedule (console w1) Hlen) as Hsome.
  destruct ((run_pool concurrency schedule (console w1)).1) as [[rs|e]|] eqn:Hr;
    [by eauto | | done].
  apply run_pool_Throw in Hr as (w0 & url & index & _ & Hthrow).
  destruct (H (parallel_job_context w0 url index)) as (r & Hr'). congruence.
Qed.

End Runners.

(** * The theorems at concrete inputs *)

Lemma generateOutputPath_scenario_witness :
  Fragment.parse "https://www.Example.com/Foo/Bar/"
  = Some {| hostname := "www.example.com"; pathname := "/Foo/Bar/" |}
  ∧ generateOutputPath Fragment.parse "https://www.Example.com/Foo/Bar/" 0 "/out"
    = Normal "/out/001-example-com-Foo-Bar.mp4".
Proof.
  split; [vm_compute; reflexivity|].
  apply (generateOutputPath_scenario Fragment.parse). vm_compute. reflexivity.
Defined.

Lemma printBatchSummary_totals_witness :
  let results : array :=
    [Some (<["success" := VBool true]> (<["url" := VStr "a"]> ∅));
     Some (<["success" := VBool false]> (<["url" := VStr "b"]> ∅))] in
  successes results + failures results = length results.
Proof.
  intros results.
  assert (Forall (λ slot, ∃ result b,
                    slot = Some result ∧ result !! "success" = Some (VBool b)) results)
    as H; [|destruct (printBatchSummary_totals results (World ∅ []) H)
              as (rows & _ & _ & Hsum); exact Hsum].
  repeat constructor.
  - exists (<["success" := VBool true]> (<["url" := VStr "a"]> ∅)), true.
    split; [reflexivity | vm_compute; reflexivity].
  - exists (<["success" := VBool false]> (<["url" := VStr "b"]> ∅)), false.
    split; [reflexivity | vm_compute; reflexivity].
Defined.

Lemma results_in_input_order_witness :
  (∃ rs w',
     runSequential Fragment.parse Disk.mkdir three_urls "/out" record_ok ∅ (World ∅ []) = (Normal rs, w')
     ∧ in_input_order three_urls rs)
  ∧ (∀ schedule rs w',
       runParallel Fragment.parse Disk.mkdir three_urls "/out" record_ok ∅ (Some 2%Z) schedule
         (World ∅ []) = (Some (Normal rs), w') →
       in_input_order three_urls rs)
  ∧ (∀ schedule, length three_urls ≤ length schedule →
       ∃ rs w',
         runParallel Fragment.parse Disk.mkdir three_urls "/out" record_ok ∅ (Some 2%Z) schedule
           (World ∅ []) = (Some (Normal rs), w')).
Proof.
  apply (results_in_input_order Fragment.parse Disk.mkdir three_urls "/out" record_ok ∅
           (Some 2%Z) (World ∅ [])).
  - vm_compute. reflexivity.
  - intros context. eexists. split; reflexivity.
  - simpl. lia.
Defined.

Lemma pool_exhausts_queue_witness :
  (1 ≤ 2 ≤ Z.of_nat (length three_urls))%Z
  ∧ ∃ rs st,
      run_pool Fragment.parse three_urls "/out" record_ok ∅ (Some 2%Z) [1; 0; 1] []
      = (Some (Normal rs), st).
Proof.
  split; [simpl; lia|].
  apply (proj2 (pool_exhausts_queue Fragment.parse three_urls "/out" record_ok ∅
                  2%Z [1; 0; 1] [] ltac:(simpl; lia))).
  - intros context. eexists. reflexivity.
  - simpl. lia.
Defined.

Lemma exception_aborts_run_witness :
  (runSequential Fragment.parse Disk.mkdir three_urls "/out" record_crash_1 ∅ (World ∅ [])).1
  = Throw (VStr "crash")
  ∧ ∀ schedule, length three_urls ≤ length schedule →
      (runParallel Fragment.parse Disk.mkdir three_urls "/out" record_crash_1 ∅ (Some 2%Z) schedule
         (World ∅ [])).1
      = Some (Throw (VStr "crash")).
Proof.
  apply (exception_aborts_run Fragment.parse Disk.mkdir three_urls "/out" record_crash_1 ∅
           1 "not a url" (VStr "crash") (Some 2%Z) (World ∅ [])).
  - vm_compute. reflexivity.
  - reflexivity.
  - reflexivity.
  - intros context H. unfold record_crash_1. simpl in H. by case_decide.
  - intros context H. unfold record_crash_1. simpl in H. case_decide; [done | eauto].
  - simpl. lia.
Defined.

Lemma worker_hints_distinct_witness :
  (∅ : object) !! "displayStartNumber" = None
  ∧ (∅ : object) !! "sinkName" = None
  ∧ Z.of_nat
      (length (workers (run_pool Fragment.parse three_urls "/out" record_ok ∅ (Some 2%Z)
                          [1] []).2))
    = (0 `max` (2 `min` Z.of_nat (length three_urls)))%Z.
Proof.
  split; [reflexivity|]. split; [reflexivity|].
  refine (proj1 (worker_hints_distinct Fragment.parse three_urls "/out" record_ok ∅
                   (Some 2%Z) [1] [] _ _)); reflexivity.
Defined.

Lemma no_workers_empty_array_witness :
  (0 ≤ 0)%Z
  ∧ (ensureOutputDir Disk.mkdir "/out" (World ∅ [])).1 = Normal ()
  ∧ (∃ w', runParallel Fragment.parse Disk.mkdir three_urls "/out" record_ok ∅ (Some 0%Z) []
             (World ∅ [])
           = (Some (Normal [None; None; None]), w'))
  ∧ run_pool Fragment.parse three_urls "/out" record_ok ∅ (Some 0%Z) [] []
    = (Some (Normal [None; None; None]), Pool 0 [None; None; None] [] [] [] []).
Proof.
  split; [lia|]. split; [vm_compute; reflexivity|].
  destruct (no_workers_empty_array Fragment.parse Disk.mkdir three_urls "/out" record_ok ∅
              0%Z [] (World ∅ [])) as [H1 H2]; [lia | vm_compute; reflexivity |].
  split; [exact H1 | exact (H2 [])].
Defined.

Lemma index_prefix_unique_witness :
  exact_index 999
  ∧ String.length (index_prefix 999) = 3 `max` String.length (decimal (999 + 1)).
Proof.
  split; [vm_compute; reflexivity|].
  refine (proj1 (proj2 (proj2 (index_prefix_unique Fragment.parse "https://example.com/"
                                 999 "/out" _)))).
  vm_compute. reflexivity.
Defined.

Lemma ensureOutputDir_idempotent_witness :
  ∃ w',
    ensureOutputDir Disk.mkdir "/out" (World ∅ []) = (Normal (), w')
    ∧ fs w' !! "/out" = Some Directory
    ∧ ensureOutputDir Disk.mkdir "/out" w' = (Normal (), w').
Proof.
  destruct (ensureOutputDir_idempotent Disk.mkdir "/out" (World ∅ [])) as (_ & _ & H).
  { intros files. unfold Disk.mkdir. change (Disk.prefixes "" "/out") with ["/out"].
    cbn [foldl Disk.mkdir_step].
    destruct (files !! "/out") as [[content|]|] eqn:E;
      [change (String.eqb "/out" "/out") with true; cbn [fst snd]; discriminate
      | cbn [fst snd]; intros _; exact E
      | cbn [fst snd]; intros _; apply lookup_insert_eq]. }
  assert (∃ w', ensureOutputDir Disk.mkdir "/out" (World ∅ []) = (Normal (), w'))
    as [w' E] by (eexists; vm_compute; reflexivity).
  exists w'. destruct (H w' E) as [H1 H2].
  split; [exact E|]. split; [apply H1; reflexivity | exact H2].
Defined.

(** A regular file where a directory is needed: both runners throw the
    error of [mkdirSync] and start no job. *)
Example runners_without_directory :
  let w := World (<["/data" := File "x"]> ∅) [] in
  (runSequential Fragment.parse Disk.mkdir three_urls "/data/out" record_ok ∅ w).1
  = Throw (Error "ENOTDIR: not a directory, mkdir '/data/out'")
  ∧ runParallel Fragment.parse Disk.mkdir three_urls "/data/out" record_ok ∅ (Some 2%Z)
      [0; 0; 0] w
    = (Some (Throw (Error "ENOTDIR: not a directory, mkdir '/data/out'")),
       World (<["/data" := File "x"]> ∅) ["Creating output directory: /data/out"]).
Proof. split; vm_compute; reflexivity. Qed.

(** The scenario of the unparseable URL. *)
Example generateOutputPath_fallback_scenario :
  generateOutputPath Fragment.parse "not a valid url!!" 4 "/out"
  = Normal "/out/005-not-a-valid-url--.mp4".
Proof. vm_compute. reflexivity. Qed.

(** The scenario of the batch of five at concurrency 2 with a failure at
    index 2: five rows in input order, four OK and one FAIL. *)
Example batch_of_five_scenario :
  match run_pool Fragment.parse five_urls "/out" record_fail_2 ∅ (Some 2%Z)
          [1; 0; 0; 1; 0] [] with
  | (Some (Normal rs), _) =>
      drop 3 (printBatchSummary rs (World ∅ [])).2.(console)
      = ["  [OK] https://a.com/"; "         /out/001-a-com.mp4";
         "  [OK] https://b.com/"; "         /out/002-b-com.mp4";
         "  [FAIL] https://c.com/"; "         timeout";
         "  [OK] https://d.com/"; "         /out/004-d-com.mp4";
         "  [OK] https://e.com/"; "         /out/005-e-com.mp4";
         repeat_char "-" 70;
         "Total: 5 | Success: 4 | Failed: 1";
         repeat_char "=" 70]
  | _ => False
  end.
Proof. vm_compute. reflexivity. Qed.

(** * Where the claims as stated fail *)

(** C5 as stated fails: at index 999 the prefix is ["1000"], four
    characters and not three, and the path differs from the one at index 0
    in the prefix alone. *)
Lemma index_prefix_not_3_digits :
  generateOutputPath Fragment.parse "https://example.com/" 999 "/out"
  = Normal "/out/1000-example-com.mp4"
  ∧ generateOutputPath Fragment.parse "https://example.com/" 0 "/out"
    = Normal "/out/001-example-com.mp4"
  ∧ String.length (padStart 3 "0" (decimal (999 + 1))) = 4
  ∧ ¬ (∀ index, String.length (padStart 3 "0" (decimal (index + 1))) = 3).
Proof.
  split; [vm_compute; reflexivity|]. split; [vm_compute; reflexivity|].
  split; [vm_compute; reflexivity|].
  intros H. specialize (H 999). vm_compute in H. discriminate.
Qed.

(** C1 as stated fails. At concurrency 0 [runParallel] returns an array
    whose slot 0 is empty; a result with a [url] of its own replaces the
    input URL; and a rejected call leaves no array at all. *)
Lemma results_not_in_input_order :
  (runParallel Fragment.parse Disk.mkdir ["https://a.com/"] "/out" record_ok ∅ (Some 0%Z) []
     (World ∅ [])).1
  = Some (Normal [None])
  ∧ ¬ in_input_order ["https://a.com/"] [None]
  ∧ match (runSequential Fragment.parse Disk.mkdir ["https://a.com/"] "/out" record_redirected ∅
             (World ∅ [])).1
    with
    | Normal [Some r] => r !! "url" = Some (VStr "https://b.com/")
    | _ => False
    end
  ∧ match (run_pool Fragment.parse ["https://a.com/"] "/out" record_redirected ∅
             (Some 1%Z) [0] []).1
    with
    | Some (Normal [Some r]) => r !! "url" = Some (VStr "https://b.com/")
    | _ => False
    end
  ∧ (runSequential Fragment.parse Disk.mkdir three_urls "/out" record_crash_1 ∅ (World ∅ [])).1
    = Throw (VStr "crash").
Proof.
  split; [vm_compute; reflexivity|]. split.
  - intros [_ H]. destruct (H 0 "https://a.com/" eq_refl) as (r & Hr & _). discriminate.
  - split; [vm_compute; reflexivity|]. split; vm_compute; reflexivity.
Qed.

(** C3 as stated fails: the exception raised for the job at index 1 leaves
    [runSequential] and [runParallel] without a result array. *)
Lemma exception_not_caught :
  (runSequential Fragment.parse Disk.mkdir three_urls "/out" record_crash_1 ∅ (World ∅ [])).1
  = Throw (VStr "crash")
  ∧ (runParallel Fragment.parse Disk.mkdir three_urls "/out" record_crash_1 ∅ (Some 2%Z) [0; 0; 0]
       (World ∅ [])).1
    = Some (Throw (VStr "crash")).
Proof. split; vm_compute; reflexivity. Qed.

(** C6 as stated fails: a [sinkName] and a [displayStartNumber] among the
    shared arguments reach every worker, so that workers 0 and 1, both
    suspended at their [await], hold the same ones. *)
Lemma shared_hints_collide :
  let sharedArgs : object :=
    <["sinkName" := VStr "shared_sink"]> (<["displayStartNumber" := VNum 99]> ∅) in
  let st := (run_pool Fragment.parse three_urls "/out" record_ok sharedArgs (Some 2%Z)
               [] []).2 in
  awaiting (workers st) = [0; 1]
  ∧ (λ call : nat * object,
       (call.1, call.2 !! "sinkName", call.2 !! "displayStartNumber")) <$> calls st
    = [(0, Some (VStr "shared_sink"), Some (VNum 99));
       (1, Some (VStr "shared_sink"), Some (VNum 99))].
Proof. split; vm_compute; reflexivity. Qed.

(** * The further properties at concrete inputs *)

(** The parser of the examples returns host names without separator. *)
Lemma lower_no_slash (c : ascii) :
  Fragment.is_host_char c = true → negb (Ascii.eqb (Fragment.lower c) "/") = true.
Proof. destruct c as [[] [] [] [] [] [] [] []]; vm_compute; congruence. Qed.

Lemma host_chars_no_slash (host : string) :
  Fragment.all_chars Fragment.is_host_char host = true →
  no_slash (map_chars Fragment.lower host) = true.
Proof.
  induction host as [|c host IH]; [done|]. cbn [Fragment.all_chars map_chars].
  intros [Hc Hs]%andb_prop. unfold no_slash in *. cbn [every_char].
  by rewrite (lower_no_slash c Hc), IH.
Qed.

Lemma Fragment_parse_no_slash (url : string) (u : URL) :
  Fragment.parse url = Some u → no_slash (hostname u) = true.
Proof.
  unfold Fragment.parse.
  destruct (Fragment.break_at ":" url) as [scheme [[|c1 [|c2 rest]]|]]; try done.
  - by destruct c1 as [[] [] [] [] [] [] [] []].
  - destruct c1 as [[] [] [] [] [] [] [] []]; try done.
    destruct c2 as [[] [] [] [] [] [] [] []]; try done.
    destruct (Fragment.break_at "/" rest) as [host path].
    destruct (_ && _ && _ && _) eqn:E; [|done]. intros [= <-]. cbn [hostname].
    apply andb_prop in E as [E _]. apply andb_prop in E as [_ E].
    by apply host_chars_no_slash.
Qed.

Lemma generateOutputPath_in_dir_witness :
  ∃ d,
    (d = "" ∨ Path.last_char d = Some "/"%char)
    ∧ ∀ url index,
        ∃ stem,
          no_slash stem = true
          ∧ generateOutputPath Fragment.parse url index "/out"
            = Normal (d +:+ index_prefix index +:+ "-" +:+ stem +:+ ".mp4").
Proof.
  apply (generateOutputPath_in_dir Fragment.parse "/out"). exact Fragment_parse_no_slash.
Defined.

Lemma generateOutputPath_distinct_witness :
  exact_index 0 ∧ exact_index 1 ∧ 0 ≠ 1
  ∧ generateOutputPath Fragment.parse "https://a.com/x" 0 "/out"
    ≠ generateOutputPath Fragment.parse "https://a.com/x" 1 "/out".
Proof.
  split; [vm_compute; reflexivity|]. split; [vm_compute; reflexivity|]. split; [lia|].
  apply (generateOutputPath_distinct Fragment.parse "https://a.com/x" "https://a.com/x"
           0 1 "/out");
    [exact Fragment_parse_no_slash | vm_compute; reflexivity.. | lia].
Defined.

Lemma generateOutputPath_root_witness :
  Fragment.parse "https://www.example.com/"
  = Some {| hostname := "www.example.com"; pathname := "/" |}
  ∧ generateOutputPath Fragment.parse "https://www.example.com/" 6 "/out"
    = Normal (Path.join "/out"
                (index_prefix 6 +:+ "-"
                 +:+ replace_dots (strip_www "www.example.com") +:+ ".mp4")).
Proof.
  split; [vm_compute; reflexivity|].
  apply (generateOutputPath_root Fragment.parse "https://www.example.com/"
           {| hostname := "www.example.com"; pathname := "/" |} 6 "/out");
    [vm_compute; reflexivity | left; reflexivity].
Defined.

Lemma readUrlFile_urls_witness :
  ∃ found w',
    readUrlFile "urls.txt" (World (<["urls.txt" := File scenario_file]> ∅) [])
    = (Normal found, w')
    ∧ found ≠ []
    ∧ Forall (λ url,
                url ≠ "" ∧ trim url = url ∧ startsWith "#" url = false
                ∧ every_char (λ c, negb (Ascii.eqb c (ascii_of_nat 10))) url = true)
        found.
Proof.
  assert (∃ found w',
            readUrlFile "urls.txt" (World (<["urls.txt" := File scenario_file]> ∅) [])
            = (Normal found, w')) as (found & w' & E)
    by (eexists _, _; vm_compute; reflexivity).
  exists found, w'. split; [exact E|].
  destruct (readUrlFile_urls "urls.txt" _ found w' E) as (H1 & H2 & _).
  split; [exact H1 | exact H2].
Defined.

Lemma readUrlFile_crlf_witness :
  (readUrlFile "urls.txt" (World (<["urls.txt" := File (crlf scenario_file)]> ∅) [])).1
  = (readUrlFile "urls.txt" (World (<["urls.txt" := File scenario_file]> ∅) [])).1.
Proof.
  apply (readUrlFile_crlf "urls.txt" scenario_file); vm_compute; reflexivity.
Defined.

Lemma runner_result_fields_witness :
  three_urls !! 1 = Some "not a url"
  ∧ ∃ rs w',
      runSequential Fragment.parse Disk.mkdir three_urls "/out" record_ok ∅ (World ∅ [])
      = (Normal rs, w')
      ∧ ∃ result,
          record_ok (sequential_job_context Fragment.parse three_urls "/out" ∅ "not a url" 1)
          = Normal result
          ∧ job_element Fragment.parse "/out" rs 1 "not a url" result.
Proof.
  split; [reflexivity|].
  destruct (runSequential_returns Fragment.parse Disk.mkdir three_urls "/out" record_ok ∅
              (World ∅ [])) as (rs & w' & E);
    [vm_compute; reflexivity | intros context; eexists; reflexivity |].
  exists rs, w'. split; [exact E|].
  refine (proj1 (runner_result_fields Fragment.parse Disk.mkdir three_urls "/out" record_ok ∅
                   (Some 2%Z) [] (World ∅ []) rs w' 1 "not a url" _) E).
  reflexivity.
Defined.

Lemma runParallel_as_runSequential_witness :
  ∃ rs w',
    runParallel Fragment.parse Disk.mkdir five_urls "/out" record_fail_2 ∅ (Some 2%Z) [1; 0; 0; 1; 0]
      (World ∅ [])
    = (Some (Normal rs), w')
    ∧ (runSequential Fragment.parse Disk.mkdir five_urls "/out" record_fail_2 ∅ (World ∅ [])).1
      = Normal rs.
Proof.
  destruct (runParallel_returns Fragment.parse Disk.mkdir five_urls "/out" record_fail_2 ∅
              (Some 2%Z) [1; 0; 0; 1; 0] (World ∅ [])) as (rs & w' & E);
    [vm_compute; reflexivity
    | intros context; unfold record_fail_2; case_decide; eexists; reflexivity
    | simpl; lia |].
  exists rs, w'. split; [exact E|].
  refine (proj1 (runParallel_as_runSequential Fragment.parse Disk.mkdir five_urls "/out"
                   record_fail_2 ∅ (Some 2%Z) [1; 0; 0; 1; 0] (World ∅ []) rs w' _ _ E)).
  - simpl. lia.
  - intros c1 c2 _ _ H. unfold record_fail_2. rewrite H. reflexivity.
Defined.

Lemma sharedArgs_reach_recordFn_witness :
  (<["fps" := VNum 30]> ∅ : object) !! "fps" = Some (VNum 30)
  ∧ ∀ wk context,
      (wk, context)
      ∈ calls (run_pool Fragment.parse three_urls "/out" record_ok
                 (<["fps" := VNum 30]> ∅) (Some 2%Z) [1; 0; 1] []).2 →
      context !! "fps" = Some (VNum 30).
Proof.
  split; [vm_compute; reflexivity|].
  refine (proj2 (proj2 (sharedArgs_reach_recordFn Fragment.parse three_urls "/out"
                          record_ok (<["fps" := VNum 30]> ∅) "fps" (VNum 30) _))
            (Some 2%Z) [1; 0; 1] []).
  vm_compute. reflexivity.
Defined.

Lemma runners_empty_list_witness :
  runSequential Fragment.parse Disk.mkdir [] "/out" record_ok ∅ (World ∅ [])
  = (match (ensureOutputDir Disk.mkdir "/out" (World ∅ [])).1 with
     | Normal _ => Normal []
     | Throw e => Throw e
     end, (ensureOutputDir Disk.mkdir "/out" (World ∅ [])).2)
  ∧ ∀ out, calls (run_pool Fragment.parse [] "/out" record_ok ∅ (Some 4%Z) [] out).2 = [].
Proof.
  destruct (runners_empty_list Fragment.parse Disk.mkdir [] "/out" record_ok ∅ (Some 4%Z) []
              (World ∅ []) eq_refl) as (H1 & _ & H3).
  split; [exact H1 | exact H3].
Defined.

Lemma batch_report_complete_witness :
  ∃ rs w1,
    runSequential Fragment.parse Disk.mkdir five_urls "/out" record_fail_2 ∅ (World ∅ [])
    = (Normal rs, w1)
    ∧ ∃ rows : list (list string),
        length rows = length five_urls
        ∧ successes rs + failures rs = length five_urls.
Proof.
  destruct (runSequential_returns Fragment.parse Disk.mkdir five_urls "/out" record_fail_2 ∅
              (World ∅ [])) as (rs & w1 & E);
    [vm_compute; reflexivity
    | intros context; unfold record_fail_2; case_decide; eexists; reflexivity |].
  exists rs, w1. split; [exact E|].
  destruct (batch_report_complete Fragment.parse Disk.mkdir five_urls "/out" record_fail_2 ∅
              (Some 2%Z) [] (World ∅ []) rs w1) as (rows & _ & H1 & _ & H2);
    [simpl; lia | left; exact E |].
  exists rows. split; [exact H1 | exact H2].
Defined.

Lemma batch_report_no_workers_witness :
  ∃ rs w1,
    runParallel Fragment.parse Disk.mkdir three_urls "/out" record_ok ∅ (Some 0%Z) [0; 0; 0]
      (World ∅ [])
    = (Some (Normal rs), w1)
    ∧ (printBatchSummary rs w1).1
      = Throw (VError "TypeError"
                 "Cannot read properties of undefined (reading 'success')").
Proof.
  destruct (runParallel_returns Fragment.parse Disk.mkdir three_urls "/out" record_ok ∅
              (Some 0%Z) [0; 0; 0] (World ∅ [])) as (rs & w1 & E);
    [vm_compute; reflexivity | intros context; eexists; reflexivity | simpl; lia |].
  exists rs, w1. split; [exact E|].
  rewrite (batch_report_no_workers Fragment.parse Disk.mkdir three_urls "/out" record_ok ∅
             0%Z [0; 0; 0] (World ∅ []) rs w1); [reflexivity | lia | discriminate | exact E].
Defined.

Lemma readUrlFile_concat_witness :
  let lf := String (ascii_of_nat 10) "" in
  let w :=
    World (<["a.txt" := File "https://a.com/"]>
             (<["b.txt" := File ("# more" +:+ lf +:+ "https://b.com/")]>
                (<["all.txt" := File ("https://a.com/" +:+ lf +:+ "# more" +:+ lf
                                      +:+ "https://b.com/")]> ∅))) [] in
  (readUrlFile "a.txt" w).1 = Normal ["https://a.com/"]
  ∧ (readUrlFile "b.txt" w).1 = Normal ["https://b.com/"]
  ∧ (readUrlFile "all.txt" w).1 = Normal (["https://a.com/"] ++ ["https://b.com/"]).
Proof.
  intros lf w.
  assert (∃ w1, readUrlFile "a.txt" w = (Normal ["https://a.com/"], w1)) as [w1 H1]
    by (eexists; vm_compute; reflexivity).
  assert (∃ w2, readUrlFile "b.txt" w = (Normal ["https://b.com/"], w2)) as [w2 H2]
    by (eexists; vm_compute; reflexivity).
  split; [by rewrite H1|]. split; [by rewrite H2|].
  apply (readUrlFile_concat "a.txt" "b.txt" "all.txt" "https://a.com/"
           ("# more" +:+ lf +:+ "https://b.com/") w _ _ w1 w2);
    [vm_compute; reflexivity.. | exact H1 | exact H2].
Defined.
